(** * The netipv6zone fix of tmc/fix, embedded and verified

    The program under study is [examples/fixnetipv6zone]: one fix,
    [netipv6zone], registered with the [fix] library, which rewrites
    positional composite literals of [net.IPAddr], [net.UDPAddr] and
    [net.TCPAddr] into keyed ones.

    Layout: the fragment of [go/token] and [go/ast] the fix touches, the
    [fix] library operations it calls, the fix itself, its test case, and
    then the theorems. *)

From stdpp Require Import list strings gmap sorting.

Local Open Scope string_scope.
Local Open Scope list_scope.
#[local] Set Warnings "-register-all".

(** ** go/token: the token kinds that occur in the modelled syntax *)

Module token.

Inductive Token :=
| ILLEGAL | INT | FLOAT | IMAG | CHAR | STRING
| ADD | SUB | MUL | QUO | REM | AND | OR | XOR | NOT | ARROW
| EQL | NEQ | LSS | GTR | LAND | LOR
| ASSIGN | DEFINE
| IMPORT | CONST | TYPE | VAR.

End token.

(** ** go/ast: expressions, statements, declarations, files

    Identifiers in name position ([Sel], [Names], a function's [Name]) are
    kept as [IdentT] records; an identifier used as an expression is the
    node [Ident]. [Obj] is the resolved object of the identifier, [None]
    for Go's nil. *)

Module ast.

Inductive ObjKind := Bad | Pkg | Con | Typ | Var | Fun | Lbl.

Record IdentT := mkIdent { Name : string; Obj : option ObjKind }.

Inductive Expr :=
| Ident (id : IdentT)
| BasicLit (Kind : token.Token) (Value : string)
| CompositeLit (Type_ : option Expr) (Elts : list Expr)
| ParenExpr (X : Expr)
| SelectorExpr (X : Expr) (Sel : option IdentT)
| IndexExpr (X Index : Expr)
| StarExpr (X : Expr)
| UnaryExpr (Op : token.Token) (X : Expr)
| BinaryExpr (X : Expr) (Op : token.Token) (Y : Expr)
| CallExpr (Fun : Expr) (Args : list Expr)
| KeyValueExpr (Key Value : Expr).

Inductive Stmt :=
| ExprStmt (X : Expr)
| AssignStmt (Lhs : list Expr) (Tok : token.Token) (Rhs : list Expr)
| ReturnStmt (Results : list Expr)
| BlockStmt (List : list Stmt)
| IfStmt (Cond : Expr) (Body : list Stmt) (Else : option Stmt).

Record ImportSpecT := mkImport { ImportName : option IdentT; Path : string }.

Inductive Spec :=
| ImportSpec (s : ImportSpecT)
| ValueSpec (Names : list IdentT) (Type_ : option Expr) (Values : list Expr).

Inductive Decl :=
| GenDecl (Tok : token.Token) (Specs : list Spec)
| FuncDecl (Name : IdentT) (Body : option (list Stmt)).

Record File := mkFile {
  PkgName : IdentT;
  Decls : list Decl;
  Imports : list ImportSpecT
}.

(** [ast.NewIdent name]: a fresh, unresolved identifier. *)
Definition NewIdent (name : string) : Expr := Ident (mkIdent name None).

(** The [String] method of an identifier: its name, or the text Go prints
    for a nil identifier. *)
Definition String (id : option IdentT) : string :=
  match id with
  | Some i => Name i
  | None => "<nil>"
  end.

End ast.

Import ast.

(** ** Results of code that may panic or recurse without bound

    [None] stands for "no normal return": a run-time panic (an index or a
    slice bound out of range) or, in the walker, exhausted fuel. *)

Definition Walker (St A : Type) : Type := A -> St -> option (A * St).

Definition bindW {St A B : Type} (m : option (A * St))
    (k : A -> St -> option (B * St)) : option (B * St) :=
  match m with
  | Some (a, s) => k a s
  | None => None
  end.

Notation "'do' ( x , s ) <- m ; k" := (bindW m (fun x s => k))
  (at level 10, x name, s name, m at level 100, k at level 200).

Definition retW {St A : Type} (a : A) (s : St) : option (A * St) := Some (a, s).

(** [w'] returns whatever [w] returns. *)
Definition extends {St A : Type} (w w' : Walker St A) : Prop :=
  forall x s r, w x s = Some r -> w' x s = Some r.

Definition walkList {St A : Type} (w : Walker St A) : Walker St (list A) :=
  fix go (l : list A) (s : St) : option (list A * St) :=
    match l with
    | [] => retW [] s
    | x :: r =>
        do (x', s1) <- w x s;
        do (r', s2) <- go r s1;
        retW (x' :: r') s2
    end.

Definition walkOpt {St A : Type} (w : Walker St A) : Walker St (option A) :=
  fun o s =>
    match o with
    | None => retW None s
    | Some x => do (x', s1) <- w x s; retW (Some x') s1
    end.

(** ** The fix library (Go package [fix]): [Fix], [Imports], [IsTopName],
    [Walk] *)

Module fixpkg.

(** Modelled from the spec: the [Fix] record of the library, "a named,
    dated, self-contained transformation", with the four fields the
    program fills in positionally (name, date, transform, description).
    The transform takes the fuel of the walk as its first argument. *)
Record Fix := mkFix {
  Name : string;
  Date : string;
  F : nat -> File -> option (File * bool);
  Desc : string
}.

(** Modelled from the spec: [fix.Imports], the precondition "the source
    unit imports the specific dependency". [Path] holds the unquoted
    import path. *)
Definition Imports (f : File) (path : string) : bool :=
  existsb (fun s => String.eqb (ast.Path s) path) (ast.Imports f).

(** Modelled from the spec: [fix.IsTopName], the test that an expression
    is a reference to the imported dependency by its top-level name, that
    is, an identifier of that name which no declaration in the file
    captures ([Obj] is nil). *)
Definition IsTopName (n : Expr) (name : string) : bool :=
  match n with
  | Ident id =>
      String.eqb (ast.Name id) name &&
      match Obj id with None => true | Some _ => false end
  | _ => false
  end.

(** Modelled from the spec: the callback handed to [fix.Walk]. Go passes
    one [func(interface{})]; on the typed tree it is one function per sort
    of node. A callback mutates the node it is given in place and may
    update the variables it closes over: it maps the node and the state
    [St] of those variables to the node and state afterwards. *)
Record Visitor (St : Type) := mkVisitor {
  visitExpr : Walker St Expr;
  visitStmt : Walker St Stmt;
  visitSpec : Walker St Spec;
  visitDecl : Walker St Decl;
  visitFile : Walker St File
}.
Arguments visitExpr {St} _.
Arguments visitStmt {St} _.
Arguments visitSpec {St} _.
Arguments visitDecl {St} _.
Arguments visitFile {St} _.

(** Modelled from the spec: [fix.Walk], the generic walker. "[visit] is
    invoked in pre-order on every node the walk passes through, including
    the root", then "the walker recurses into each non-absent child in the
    order the parent structurally defines", reading the children from the
    live node, that is, after the callback ran on it. The recursion is not
    bounded by the input (a callback may grow the tree under the walker),
    so each descent spends one unit of fuel. *)
Section Walk.
Context {St : Type} (v : Visitor St).

Definition walkExprChildren (rec : Walker St Expr) : Walker St Expr :=
  fun e s =>
    match e with
    | Ident _ | BasicLit _ _ => retW e s
    | CompositeLit ty elts =>
        do (ty', s1) <- walkOpt rec ty s;
        do (elts', s2) <- walkList rec elts s1;
        retW (CompositeLit ty' elts') s2
    | ParenExpr x => do (x', s1) <- rec x s; retW (ParenExpr x') s1
    | SelectorExpr x sel =>
        do (x', s1) <- rec x s; retW (SelectorExpr x' sel) s1
    | IndexExpr x i =>
        do (x', s1) <- rec x s;
        do (i', s2) <- rec i s1;
        retW (IndexExpr x' i') s2
    | StarExpr x => do (x', s1) <- rec x s; retW (StarExpr x') s1
    | UnaryExpr op x => do (x', s1) <- rec x s; retW (UnaryExpr op x') s1
    | BinaryExpr x op y =>
        do (x', s1) <- rec x s;
        do (y', s2) <- rec y s1;
        retW (BinaryExpr x' op y') s2
    | CallExpr f args =>
        do (f', s1) <- rec f s;
        do (args', s2) <- walkList rec args s1;
        retW (CallExpr f' args') s2
    | KeyValueExpr k val =>
        do (k', s1) <- rec k s;
        do (val', s2) <- rec val s1;
        retW (KeyValueExpr k' val') s2
    end.

Fixpoint walkExpr (fuel : nat) : Walker St Expr :=
  fun e s =>
    match fuel with
    | 0 => None
    | S n =>
        do (e1, s1) <- visitExpr v e s;
        walkExprChildren (walkExpr n) e1 s1
    end.

Definition walkStmtChildren (recE : Walker St Expr) (rec : Walker St Stmt)
    : Walker St Stmt :=
  fun st s =>
    match st with
    | ExprStmt x => do (x', s1) <- recE x s; retW (ExprStmt x') s1
    | AssignStmt lhs tok rhs =>
        do (lhs', s1) <- walkList recE lhs s;
        do (rhs', s2) <- walkList recE rhs s1;
        retW (AssignStmt lhs' tok rhs') s2
    | ReturnStmt rs =>
        do (rs', s1) <- walkList recE rs s; retW (ReturnStmt rs') s1
    | BlockStmt l =>
        do (l', s1) <- walkList rec l s; retW (BlockStmt l') s1
    | IfStmt c body els =>
        do (c', s1) <- recE c s;
        do (body', s2) <- walkList rec body s1;
        do (els', s3) <- walkOpt rec els s2;
        retW (IfStmt c' body' els') s3
    end.

Fixpoint walkStmt (fuel : nat) : Walker St Stmt :=
  fun st s =>
    match fuel with
    | 0 => None
    | S n =>
        do (st1, s1) <- visitStmt v st s;
        walkStmtChildren (walkExpr n) (walkStmt n) st1 s1
    end.

Definition walkSpec (fuel : nat) : Walker St Spec :=
  fun sp s =>
    match fuel with
    | 0 => None
    | S n =>
        do (sp1, s1) <- visitSpec v sp s;
        match sp1 with
        | ImportSpec _ => retW sp1 s1
        | ValueSpec names ty vals =>
            do (ty', s2) <- walkOpt (walkExpr n) ty s1;
            do (vals', s3) <- walkList (walkExpr n) vals s2;
            retW (ValueSpec names ty' vals') s3
        end
    end.

Definition walkDecl (fuel : nat) : Walker St Decl :=
  fun d s =>
    match fuel with
    | 0 => None
    | S n =>
        do (d1, s1) <- visitDecl v d s;
        match d1 with
        | GenDecl tok specs =>
            do (specs', s2) <- walkList (walkSpec n) specs s1;
            retW (GenDecl tok specs') s2
        | FuncDecl name body =>
            do (body', s2) <- walkOpt (walkList (walkStmt n)) body s1;
            retW (FuncDecl name body') s2
        end
    end.

Definition Walk (fuel : nat) : Walker St File :=
  fun f s =>
    match fuel with
    | 0 => None
    | S n =>
        do (f1, s1) <- visitFile v f s;
        do (decls', s2) <- walkList (walkDecl n) (Decls f1) s1;
        retW (mkFile (PkgName f1) decls' (ast.Imports f1)) s2
    end.
End Walk.

(** Modelled from the spec: the Fix Registry, which is not among the
    sources. "Collection of all registered Fixes"; [Register] "fails fast
    if [name] collides with an already-registered fix"; [all] is "ordered
    by (date, name) ascending"; [select] returns "fixes in (date, name)
    order restricted to the requested names, or [fails] with
    UnknownFixError{names} enumerating every unrecognized name". *)
Definition Registry : Type := list Fix.

Inductive RegistryError :=
| DuplicateFixError (name : string)
| UnknownFixError (names : gset string).

Definition registered (reg : Registry) : gset string :=
  list_to_set (Name <$> reg).

(** Modelled from the spec: [fix.Register], which fails when the name is
    taken and appends the fix otherwise. *)
Definition Register (fx : Fix) (reg : Registry) : RegistryError + Registry :=
  if decide (Name fx ∈ registered reg)
  then inl (DuplicateFixError (Name fx))
  else inr (reg ++ [fx]).

Definition fixLe (a b : Fix) : Prop :=
  match String.compare (Date a) (Date b) with
  | Lt => True
  | Eq => String.leb (Name a) (Name b) = true
  | Gt => False
  end.

#[global] Instance fixLe_dec a b : Decision (fixLe a b).
Proof. unfold fixLe. destruct (String.compare (Date a) (Date b)); apply _. Defined.

(** Modelled from the spec: [all], the registered fixes by date, then
    name. *)
Definition all (reg : Registry) : list Fix := merge_sort fixLe reg.

(** Modelled from the spec: [select], which fails with every requested
    name that is not registered, and otherwise restricts [all] to the
    requested names. *)
Definition select (reg : Registry) (names : gset string)
    : RegistryError + list Fix :=
  let unknown := names ∖ registered reg in
  if decide (unknown = ∅)
  then inr (filter (fun fx => Name fx ∈ names) (all reg))
  else inl (UnknownFixError unknown).

End fixpkg.

(** ** The netipv6zone fix (package main) *)

Import fixpkg.

(** [_, ok := e.(T)] for [T] the pointer type of [ast.KeyValueExpr] *)
Definition isKeyValueExpr (e : Expr) : bool :=
  match e with
  | KeyValueExpr _ _ => true
  | _ => false
  end.

(** [elit, ok := e.(T); ok && elit.Value == "0"] for [T] the pointer type
    of [ast.BasicLit] *)
Definition isZeroLit (e : Expr) : bool :=
  match e with
  | BasicLit _ val => String.eqb val "0"
  | _ => false
  end.

(** The slice [cl.Elts] while the loop runs. [for i, e := range cl.Elts]
    evaluates [cl.Elts] once and then reads element [i] of that copy, which
    shares its backing array with the live [cl.Elts]; the loop body writes
    through [cl.Elts] and, on deletion, shortens it. [array] is the shared
    backing array, [len] is [len(cl.Elts)], so [cl.Elts] is
    [take len array]; [fixed] is the captured variable of the callback. *)
Record EltsState := mkElts {
  array : list Expr;
  len : nat;
  fixed : bool
}.

Definition Elts (st : EltsState) : list Expr := take (len st) (array st).

(** [cl.Elts[i] = x]; out of range panics. *)
Definition setElt (i : nat) (x : Expr) (st : EltsState) : option EltsState :=
  if decide (i < len st)
  then Some (mkElts (<[i:=x]> (array st)) (len st) (fixed st))
  else None.

(** [cl.Elts = append(cl.Elts[:i], cl.Elts[i+1:]...)]. The slice
    expressions panic unless [i+1 <= len]. The destination [cl.Elts[:i]]
    keeps the capacity of [cl.Elts], so [append] copies in place: the
    elements after [i] move down by one and the last slot of the old
    extent keeps its old content. *)
Definition deleteElt (i : nat) (st : EltsState) : option EltsState :=
  if decide (i + 1 <= len st)
  then Some (mkElts (take i (array st)
                       ++ drop (i + 1) (take (len st) (array st))
                       ++ drop (len st - 1) (array st))
                    (len st - 1) (fixed st))
  else None.

(** The body of the loop after the [KeyValueExpr] test: the [switch i] and
    [fixed = true]. *)
Definition rangeBody (i : nat) (e : Expr) (st : EltsState) : option EltsState :=
  st1 ← match i with
        | 0 => setElt i (KeyValueExpr (NewIdent "IP") e) st
        | 1 => if isZeroLit e
               then deleteElt i st
               else setElt i (KeyValueExpr (NewIdent "Port") e) st
        | _ => Some st
        end;
  Some (mkElts (array st1) (len st1) true).

(** [for i, e := range cl.Elts { if e is a KeyValueExpr { break }; ... }]
    with [todo] iterations left, at index [i]. *)
Fixpoint rangeElts (todo i : nat) (st : EltsState) : option EltsState :=
  match todo with
  | 0 => Some st
  | S todo' =>
      e ← array st !! i;
      if isKeyValueExpr e then Some st
      else st1 ← rangeBody i e st; rangeElts todo' (S i) st1
  end.

(** The function literal passed to [fix.Walk]: its effect on an expression
    node [n] and on the captured [fixed]. *)
Definition netipv6zoneVisit : Walker bool Expr :=
  fun n fixed0 =>
    match n with
    | CompositeLit (Some (SelectorExpr x sel)) elts =>
        if negb (IsTopName x "net") || negb (bool_decide (is_Some sel))
        then retW n fixed0
        else
          let ss := ast.String sel in
          if String.eqb ss "IPAddr" || String.eqb ss "UDPAddr"
             || String.eqb ss "TCPAddr"
          then
            st ← rangeElts (length elts) 0 (mkElts elts (length elts) fixed0);
            retW (CompositeLit (Some (SelectorExpr x sel)) (Elts st))
                 (fixed st)
          else retW n fixed0
    | _ => retW n fixed0
    end.

(** On every node that is not an expression the type assertion to a
    composite literal fails and the callback returns at once. *)
Definition netipv6zoneVisitor : Visitor bool :=
  mkVisitor bool netipv6zoneVisit retW retW retW retW.

(** [func netipv6zone(f *ast.File) bool]: the file after the call and the
    returned flag. *)
Definition netipv6zone (fuel : nat) (f : File) : option (File * bool) :=
  if negb (fixpkg.Imports f "net") then Some (f, false)
  else Walk netipv6zoneVisitor fuel f false.

Definition netipv6zoneFix : Fix :=
  mkFix "netipv6zone" "2012-11-26" netipv6zone
        "Adapt element key to IPAddr, UDPAddr or TCPAddr composite literals.

https://codereview.appspot.com/6849045/
".

(** [func init() { fix.Register(netipv6zoneFix) }] on the empty registry. *)
Definition init : RegistryError + Registry := Register netipv6zoneFix [].

(** [netipv6zone f] returns with tree [f'] and flag [b]. *)
Definition returns (f f' : File) (b : bool) : Prop :=
  exists fuel, netipv6zone fuel f = Some (f', b).

(** ** The test case [netipv6zone.0]

    [In] and [Out] of the test are source texts; the parser and printer are
    outside the program, so the embedding holds the syntax trees the parser
    gives for them. The parser resolves [p] to the variable declared two
    lines above and leaves [net], [ip1] ... [ip5], [sub] and [nil]
    unresolved. *)

Module tests.

Definition id (s : string) : Expr := Ident (mkIdent s None).
Definition var (s : string) : Expr := Ident (mkIdent s (Some Var)).
Definition int (s : string) : Expr := BasicLit token.INT s.
Definition sel (x s : string) : Expr := SelectorExpr (id x) (Some (mkIdent s None)).
Definition lit (ty : string) (elts : list Expr) : Expr :=
  UnaryExpr token.AND (CompositeLit (Some (sel "net" ty)) elts).
Definition kv (k : string) (e : Expr) : Expr := KeyValueExpr (id k) e.
Definition define (x : string) (e : Expr) : Stmt :=
  AssignStmt [var x] token.DEFINE [e].
Definition importNet : ImportSpecT := mkImport None "net".

Definition file (body : list Stmt) : File :=
  mkFile (mkIdent "main" None)
         [GenDecl token.IMPORT [ImportSpec importNet];
          FuncDecl (mkIdent "f" (Some Fun)) (Some body)]
         [importNet].

Definition In : File :=
  file [define "a" (lit "IPAddr" [id "ip1"]);
        ExprStmt (CallExpr (id "sub") [lit "UDPAddr" [id "ip2"; int "12345"]]);
        define "c" (lit "TCPAddr" [kv "IP" (id "ip3"); kv "Port" (int "54321")]);
        define "d" (lit "TCPAddr" [id "ip4"; int "0"]);
        define "p" (int "1234");
        define "e" (lit "TCPAddr" [id "ip4"; var "p"]);
        ReturnStmt [lit "TCPAddr" [id "ip5"]; id "nil"]].

Definition Out : File :=
  file [define "a" (lit "IPAddr" [kv "IP" (id "ip1")]);
        ExprStmt (CallExpr (id "sub")
                    [lit "UDPAddr" [kv "IP" (id "ip2"); kv "Port" (int "12345")]]);
        define "c" (lit "TCPAddr" [kv "IP" (id "ip3"); kv "Port" (int "54321")]);
        define "d" (lit "TCPAddr" [kv "IP" (id "ip4")]);
        define "p" (int "1234");
        define "e" (lit "TCPAddr" [kv "IP" (id "ip4"); kv "Port" (var "p")]);
        ReturnStmt [lit "TCPAddr" [kv "IP" (id "ip5")]; id "nil"]].

End tests.

(** ** The transform in closed form

    What the loop and the walk compute, as structural functions; the
    lemmas below prove that the code computes exactly these. *)

(** The declared type is [net.IPAddr], [net.UDPAddr] or [net.TCPAddr]. *)
Definition affectedType (ty : option Expr) : bool :=
  match ty with
  | Some (SelectorExpr x (Some sel)) =>
      IsTopName x "net" &&
      (String.eqb (ast.Name sel) "IPAddr" || String.eqb (ast.Name sel) "UDPAddr"
       || String.eqb (ast.Name sel) "TCPAddr")
  | _ => false
  end.

(** [cl.Elts] after the loop. *)
Definition keyElts (elts : list Expr) : list Expr :=
  match elts with
  | [] => []
  | a :: rest =>
      if isKeyValueExpr a then elts
      else KeyValueExpr (NewIdent "IP") a ::
           match rest with
           | [] => []
           | b :: rest' =>
               if isKeyValueExpr b then rest
               else if isZeroLit b then rest'
               else KeyValueExpr (NewIdent "Port") b :: rest'
           end
  end.

(** Whether the loop body runs at all, that is, whether [fixed] is set. *)
Definition firesElts (elts : list Expr) : bool :=
  match elts with
  | [] => false
  | a :: _ => negb (isKeyValueExpr a)
  end.

Definition keyLit (e : Expr) : Expr :=
  match e with
  | CompositeLit ty elts =>
      if affectedType ty then CompositeLit ty (keyElts elts) else e
  | _ => e
  end.

Definition firesLit (e : Expr) : bool :=
  match e with
  | CompositeLit ty elts => affectedType ty && firesElts elts
  | _ => false
  end.

(** The children of an expression node, in the order the walker takes. *)
Definition exprChildren (e : Expr) : list Expr :=
  match e with
  | Ident _ | BasicLit _ _ => []
  | CompositeLit ty elts => option_list ty ++ elts
  | ParenExpr x | SelectorExpr x _ | StarExpr x | UnaryExpr _ x => [x]
  | IndexExpr x y | BinaryExpr x _ y | KeyValueExpr x y => [x; y]
  | CallExpr f args => f :: args
  end.

Definition mapExprChildren (g : Expr -> Expr) (e : Expr) : Expr :=
  match e with
  | Ident _ | BasicLit _ _ => e
  | CompositeLit ty elts => CompositeLit (g <$> ty) (g <$> elts)
  | ParenExpr x => ParenExpr (g x)
  | SelectorExpr x sel => SelectorExpr (g x) sel
  | IndexExpr x i => IndexExpr (g x) (g i)
  | StarExpr x => StarExpr (g x)
  | UnaryExpr op x => UnaryExpr op (g x)
  | BinaryExpr x op y => BinaryExpr (g x) op (g y)
  | CallExpr f args => CallExpr (g f) (g <$> args)
  | KeyValueExpr k val => KeyValueExpr (g k) (g val)
  end.

(** The tree after the walk: every literal of an affected type keyed, at
    every depth. *)
Fixpoint rewriteExpr (e : Expr) : Expr :=
  keyLit (mapExprChildren rewriteExpr e).

(** Whether the walk sets [fixed] somewhere in the tree. *)
Fixpoint changesExpr (e : Expr) : bool :=
  firesLit e ||
  match e with
  | Ident _ | BasicLit _ _ => false
  | CompositeLit ty elts =>
      from_option changesExpr false ty || existsb changesExpr elts
  | ParenExpr x | SelectorExpr x _ | StarExpr x | UnaryExpr _ x => changesExpr x
  | IndexExpr x y | BinaryExpr x _ y | KeyValueExpr x y =>
      changesExpr x || changesExpr y
  | CallExpr f args => changesExpr f || existsb changesExpr args
  end.

(** The depth of a tree; twice the depth is fuel enough for the walk. *)
Fixpoint depthExpr (e : Expr) : nat :=
  S match e with
    | Ident _ | BasicLit _ _ => 0
    | CompositeLit ty elts =>
        from_option depthExpr 0 ty `max` max_list (depthExpr <$> elts)
    | ParenExpr x | SelectorExpr x _ | StarExpr x | UnaryExpr _ x => depthExpr x
    | IndexExpr x y | BinaryExpr x _ y | KeyValueExpr x y =>
        depthExpr x `max` depthExpr y
    | CallExpr f args => depthExpr f `max` max_list (depthExpr <$> args)
    end.

Fixpoint rewriteStmt (st : Stmt) : Stmt :=
  match st with
  | ExprStmt x => ExprStmt (rewriteExpr x)
  | AssignStmt lhs tok rhs =>
      AssignStmt (rewriteExpr <$> lhs) tok (rewriteExpr <$> rhs)
  | ReturnStmt rs => ReturnStmt (rewriteExpr <$> rs)
  | BlockStmt l => BlockStmt (rewriteStmt <$> l)
  | IfStmt c body els =>
      IfStmt (rewriteExpr c) (rewriteStmt <$> body) (rewriteStmt <$> els)
  end.

Fixpoint changesStmt (st : Stmt) : bool :=
  match st with
  | ExprStmt x => changesExpr x
  | AssignStmt lhs _ rhs => existsb changesExpr lhs || existsb changesExpr rhs
  | ReturnStmt rs => existsb changesExpr rs
  | BlockStmt l => existsb changesStmt l
  | IfStmt c body els =>
      changesExpr c || existsb changesStmt body
      || from_option changesStmt false els
  end.

Fixpoint depthStmt (st : Stmt) : nat :=
  S match st with
    | ExprStmt x => depthExpr x
    | AssignStmt lhs _ rhs =>
        max_list (depthExpr <$> lhs) `max` max_list (depthExpr <$> rhs)
    | ReturnStmt rs => max_list (depthExpr <$> rs)
    | BlockStmt l => max_list (depthStmt <$> l)
    | IfStmt c body els =>
        (depthExpr c `max` max_list (depthStmt <$> body))
        `max` from_option depthStmt 0 els
    end.

(** The statements directly below a statement. *)
Definition stmtChildren (st : Stmt) : list Stmt :=
  match st with
  | ExprStmt _ | AssignStmt _ _ _ | ReturnStmt _ => []
  | BlockStmt l => l
  | IfStmt _ body els => body ++ option_list els
  end.

Definition rewriteSpec (sp : Spec) : Spec :=
  match sp with
  | ImportSpec _ => sp
  | ValueSpec names ty vals =>
      ValueSpec names (rewriteExpr <$> ty) (rewriteExpr <$> vals)
  end.

Definition changesSpec (sp : Spec) : bool :=
  match sp with
  | ImportSpec _ => false
  | ValueSpec _ ty vals =>
      from_option changesExpr false ty || existsb changesExpr vals
  end.

Definition depthSpec (sp : Spec) : nat :=
  S match sp with
    | ImportSpec _ => 0
    | ValueSpec _ ty vals =>
        from_option depthExpr 0 ty `max` max_list (depthExpr <$> vals)
    end.

Definition rewriteDecl (d : Decl) : Decl :=
  match d with
  | GenDecl tok specs => GenDecl tok (rewriteSpec <$> specs)
  | FuncDecl name body => FuncDecl name (fmap (M:=list) rewriteStmt <$> body)
  end.

Definition changesDecl (d : Decl) : bool :=
  match d with
  | GenDecl _ specs => existsb changesSpec specs
  | FuncDecl _ body => from_option (existsb changesStmt) false body
  end.

Definition depthDecl (d : Decl) : nat :=
  S match d with
    | GenDecl _ specs => max_list (depthSpec <$> specs)
    | FuncDecl _ body =>
        from_option (fun l => max_list (depthStmt <$> l)) 0 body
    end.

Definition rewriteFile (f : File) : File :=
  mkFile (PkgName f) (rewriteDecl <$> Decls f) (ast.Imports f).

Definition changesFile (f : File) : bool := existsb changesDecl (Decls f).

Definition depthFile (f : File) : nat := S (max_list (depthDecl <$> Decls f)).

(** Fuel that is enough for [netipv6zone] on [f]. *)
Definition enoughFuel (f : File) : nat := 2 * depthFile f.

(** ** Vocabulary of the properties *)

(** A composite literal of one of the three address types. *)
Definition isAffectedLit (e : Expr) : bool :=
  match e with
  | CompositeLit ty _ => affectedType ty
  | _ => false
  end.

(** No element is a key/value pair. *)
Definition positional (elts : list Expr) : bool :=
  forallb (fun e => negb (isKeyValueExpr e)) elts.

(** The rule of the fix in the words of its specification: position 0 is
    keyed by [IP]; position 1 is dropped when it is the literal [0] and
    keyed by [Port] otherwise; later positions stay. *)
Definition keyedByPosition (elts : list Expr) : list Expr :=
  match elts with
  | [] => []
  | e0 :: tl =>
      KeyValueExpr (NewIdent "IP") e0 ::
      match tl with
      | [] => []
      | e1 :: tl' =>
          if isZeroLit e1 then tl'
          else KeyValueExpr (NewIdent "Port") e1 :: tl'
      end
  end.

(** Inputs used below: a literal that mixes a positional element with a
    key/value pair, a file without imports, and a registry holding one
    fix called [real]. *)
Module examples.

Definition mixedElts : list Expr :=
  [tests.id "ip"; tests.kv "Zone" (tests.id "z")].

Definition mixedEltsAfter : list Expr :=
  [tests.kv "IP" (tests.id "ip"); tests.kv "Zone" (tests.id "z")].

Definition IPAddr : option Expr := Some (tests.sel "net" "IPAddr").

Definition mixedFile (elts : list Expr) : File :=
  tests.file [ExprStmt (CompositeLit IPAddr elts)].

Definition noImports : File :=
  mkFile (mkIdent "main" None)
         [FuncDecl (mkIdent "f" (Some Fun))
                   (Some [ExprStmt (tests.lit "IPAddr" [tests.id "ip1"])])]
         [].

Definition real : Fix :=
  mkFix "real" "2012-01-01" (fun _ f => Some (f, false)) "does nothing".

End examples.


(** ** The test file of the program (package main)

    [testCase], [addTestCases], [fnop], [netipv6zoneTests], [fixes],
    [parseFixPrint], [TestRewrite] and [tdiff]. A fix function
    [func(f *ast.File) bool] is, as [netipv6zone] above, a function of the
    fuel and the tree to the tree afterwards and the flag; Go's nil
    function is [None]. *)

Module maintest.

Definition FixFn : Type := nat -> File -> option (File * bool).

Record testCase := mkTestCase {
  Name : string;
  Fn : option FixFn;
  In : string;
  Out : string
}.

(** [t[i].Fn = fn] *)
Definition setFn (tc : testCase) (fn : FixFn) : testCase :=
  mkTestCase (Name tc) (Some fn) (In tc) (Out tc).

(** [for i := range t { if t[i].Fn == nil { t[i].Fn = fn } }], with [todo]
    iterations left at index [i]; the slice is updated in place. *)
Fixpoint fillFn (fn : FixFn) (todo i : nat) (t : list testCase)
    : list testCase :=
  match todo with
  | 0 => t
  | S todo' =>
      match t !! i with
      | Some tc =>
          fillFn fn todo' (S i)
                 match Fn tc with
                 | None => <[i := setFn tc fn]> t
                 | Some _ => t
                 end
      | None => t
      end
  end.

(** [addTestCases(t, fn)] on the package variable [testCases]: the slice
    [t] of the caller after the call (it is filled in place) and
    [testCases] after the call. *)
Definition addTestCases (t : list testCase) (fn : option FixFn)
    (testCases : list testCase) : list testCase * list testCase :=
  let t' := match fn with
            | Some g => fillFn g (length t) 0 t
            | None => t
            end in
  (t', testCases ++ t').

(** A test case once [addTestCases] has been called with [fn]: a case
    without a function gets [fn], a case with one keeps it. *)
Definition filled (fn : option FixFn) (tc : testCase) : testCase :=
  match fn, Fn tc with
  | Some g, None => setFn tc g
  | _, _ => tc
  end.

Definition fnop : FixFn := fun _ f => Some (f, false).

(** Newline, tab and the double quote. *)
Definition nl : string := String.String (Ascii.ascii_of_nat 10) EmptyString.
Definition tab : string := String.String (Ascii.ascii_of_nat 9) EmptyString.
Definition dq : string := String.String (Ascii.ascii_of_nat 34) EmptyString.

Definition source (body : list string) : string :=
  String.concat nl
    (["package main"; ""; "import " +:+ dq +:+ "net" +:+ dq; "";
      "func f() net.Addr {"]
     ++ ((fun l => tab +:+ l) <$> body) ++ ["}"; ""]).

Definition netipv6zone0 : testCase :=
  mkTestCase "netipv6zone.0" None
     (source ["a := &net.IPAddr{ip1}";
              "sub(&net.UDPAddr{ip2, 12345})";
              "c := &net.TCPAddr{IP: ip3, Port: 54321}";
              "d := &net.TCPAddr{ip4, 0}";
              "p := 1234";
              "e := &net.TCPAddr{ip4, p}";
              "return &net.TCPAddr{ip5}, nil"])
     (source ["a := &net.IPAddr{IP: ip1}";
              "sub(&net.UDPAddr{IP: ip2, Port: 12345})";
              "c := &net.TCPAddr{IP: ip3, Port: 54321}";
              "d := &net.TCPAddr{IP: ip4}";
              "p := 1234";
              "e := &net.TCPAddr{IP: ip4, Port: p}";
              "return &net.TCPAddr{IP: ip5}, nil"]).

Definition netipv6zoneTests : list testCase := [netipv6zone0].

(** [var fixes = []fix.Fix{netipv6zoneFix}] *)
Definition fixes : list Fix := [netipv6zoneFix].

(** [func init() { addTestCases(netipv6zoneTests, netipv6zone) }] on the
    empty [testCases]: the filled [netipv6zoneTests] and [testCases]. *)
Definition init : list testCase * list testCase :=
  addTestCases netipv6zoneTests (Some netipv6zone) [].

(** [for _, fix := range fixes { if fix.F(file) { fixed = true } }]: every
    fix runs on the tree the fixes before it left. *)
Fixpoint applyFixes (fs : list Fix) (fuel : nat) (file : File) (fixed : bool)
    : option (File * bool) :=
  match fs with
  | [] => Some (file, fixed)
  | fx :: rest =>
      match F fx fuel file with
      | Some (file', b) =>
          applyFixes rest fuel file' (if b then true else fixed)
      | None => None
      end
  end.

(** What [t.Errorf] and [t.Error] record: one constructor per call site,
    with the arguments of the message. *)
Inductive Failure :=
| ErrParsing (desc : string)
| ErrPrinting (desc : string)
| ErrNotGofmt (desc input formatted : string)
| ErrIncorrectOutput (name : string)
| ErrHaveWant (have want : string)
| ErrChangedFixed (name : string) (changed fixed : bool)
| ErrSecondRound (name : string)
| ErrSecondRoundOutput (name out out2 : string)
| ErrDiffFailed (err : string)
| ErrDiffOutput (data : string).

(** A result whose failures come after the failures [t]. *)
Definition onLog (t : list Failure) {A : Type}
    (r : option (list Failure * A)) : option (list Failure * A) :=
  match r with
  | Some (l, a) => Some (t ++ l, a)
  | None => None
  end.

(** The parser of the Go library, the printer and the diff of the fix
    library are outside the program: [ParseFile desc src] and [GofmtFile]
    give [None] for a non-nil error, [Diff] gives [inl] for one. *)
Section Harness.
Variable ParseFile : string -> string -> option File.
Variable GofmtFile : File -> option string.
Variable Diff : string -> string -> string + string.

Definition tdiff (t : list Failure) (a b : string) : list Failure :=
  match Diff a b with
  | inl err => t ++ [ErrDiffFailed err]
  | inr data => t ++ [ErrDiffOutput data]
  end.

(** [parseFixPrint(t, fn, desc, in, mustBeGofmt)]: the failures recorded
    on [t] afterwards and the results [(out, fixed, ok)]. The results are
    named, so a bare [return] gives their current values. *)
Definition parseFixPrint (fuel : nat) (t : list Failure) (fn : option FixFn)
    (desc input : string) (mustBeGofmt : bool)
    : option (list Failure * (string * bool * bool)) :=
  match ParseFile desc input with
  | None => Some (t ++ [ErrParsing desc], ("", false, false))
  | Some file =>
      match GofmtFile file with
      | None => Some (t ++ [ErrPrinting desc], ("", false, false))
      | Some s =>
          if negb (String.eqb input s) && mustBeGofmt
          then Some (tdiff (t ++ [ErrNotGofmt desc input s]) input s,
                     ("", false, false))
          else
            match match fn with
                  | None => applyFixes fixes fuel file false
                  | Some g => g fuel file
                  end
            with
            | None => None
            | Some (file', fixed) =>
                match GofmtFile file' with
                | None => Some (t ++ [ErrPrinting desc], ("", fixed, false))
                | Some o => Some (t, (o, fixed, true))
                end
            end
      end
  end.

(** The body of the loop of [TestRewrite] for one test case [tc] (the
    loop variable [tt] of the source). *)
Definition testOne (fuel : nat) (t : list Failure) (tc : testCase)
    : option (list Failure) :=
  match parseFixPrint fuel t (Fn tc) (Name tc) (In tc) true with
  | None => None
  | Some (t1, (out1, fixed, ok1)) =>
  if negb ok1 then Some t1 else
  match parseFixPrint fuel t1 (Some fnop) (Name tc) out1 false with
  | None => None
  | Some (t2, (out, _, ok2)) =>
  if negb ok2 then Some t2 else
  if negb (String.eqb out (Out tc)) then
    let t3 := t2 ++ [ErrIncorrectOutput (Name tc)] in
    let t4 := if negb (String.prefix "testdata/" (Name tc))
              then t3 ++ [ErrHaveWant out (Out tc)] else t3 in
    Some (tdiff t4 out (Out tc))
  else
  let changed := negb (String.eqb out (In tc)) in
  if negb (Bool.eqb changed fixed)
  then Some (t2 ++ [ErrChangedFixed (Name tc) changed fixed]) else
  match parseFixPrint fuel t2 (Fn tc) (Name tc +:+ " output") out true with
  | None => None
  | Some (t5, (out2, fixed2, ok3)) =>
  if negb ok3 then Some t5 else
  if fixed2 then Some (t5 ++ [ErrSecondRound (Name tc)]) else
  if negb (String.eqb out2 out)
  then Some (tdiff (t5 ++ [ErrSecondRoundOutput (Name tc) out out2]) out out2)
  else Some t5
  end end end.

(** [func TestRewrite(t *testing.T)] over the test cases. *)
Fixpoint TestRewrite (fuel : nat) (t : list Failure) (cases : list testCase)
    : option (list Failure) :=
  match cases with
  | [] => Some t
  | tc :: rest =>
      match testOne fuel t tc with
      | Some t' => TestRewrite fuel t' rest
      | None => None
      end
  end.

End Harness.

(** A parser and a printer that know the two texts of the test case and
    the trees the Go parser gives for them; used to run the harness. The
    printer tells the two trees apart by [changesFile]. *)
Definition tableParse (desc src : string) : option File :=
  if String.eqb src (In netipv6zone0) then Some tests.In
  else if String.eqb src (Out netipv6zone0) then Some tests.Out
  else None.

Definition tablePrint (f : File) : option string :=
  Some (if changesFile f then In netipv6zone0 else Out netipv6zone0).

Definition noDiff (a b : string) : string + string := inr "".

End maintest.
(** * Proofs *)

(** ** The loop over [cl.Elts] *)

Lemma orb_absorb_true (b : bool) : b || true = true.
Proof. by destruct b. Qed.

Lemma setElt_in_range (i : nat) (x : Expr) (st : EltsState) :
  i < len st ->
  setElt i x st = Some (mkElts (<[i:=x]> (array st)) (len st) (fixed st)).
Proof. intros Hi. unfold setElt. by case_decide; [|lia]. Qed.

Lemma deleteElt_in_range (i : nat) (st : EltsState) :
  i + 1 <= len st ->
  deleteElt i st =
    Some (mkElts (take i (array st)
                    ++ drop (i + 1) (take (len st) (array st))
                    ++ drop (len st - 1) (array st))
                 (len st - 1) (fixed st)).
Proof. intros Hi. unfold deleteElt. by case_decide; [|lia]. Qed.

Lemma rangeElts_break (todo i : nat) (st : EltsState) (e : Expr) :
  array st !! i = Some e -> isKeyValueExpr e = true ->
  rangeElts (S todo) i st = Some st.
Proof. intros He Hkv. simpl. rewrite He. simpl. by rewrite Hkv. Qed.

Lemma rangeElts_step (todo i : nat) (st st1 : EltsState) (e : Expr) :
  array st !! i = Some e -> isKeyValueExpr e = false ->
  rangeBody i e st = Some st1 ->
  rangeElts (S todo) i st = rangeElts todo (S i) st1.
Proof. intros He Hkv Hb. simpl. rewrite He. simpl. by rewrite Hkv, Hb. Qed.

(** From index 2 on, the loop body changes nothing once [fixed] is set. *)
Lemma rangeElts_tail (todo i : nat) (st : EltsState) :
  2 <= i -> i + todo <= length (array st) -> fixed st = true ->
  rangeElts todo i st = Some st.
Proof.
  revert i st. induction todo as [|todo IH]; intros i st Hi Hlen Hfx; [done|].
  destruct (lookup_lt_is_Some_2 (array st) i) as [e He]; [lia|].
  destruct (isKeyValueExpr e) eqn:Hkv; [by eapply rangeElts_break|].
  assert (rangeBody i e st = Some st) as Hb.
  { destruct i as [|[|i]]; [lia|lia|]. simpl.
    destruct st as [arr n fx]; simpl in *; by subst fx. }
  rewrite (rangeElts_step _ _ _ _ _ He Hkv Hb).
  apply IH; [lia | lia | done].
Qed.

(** The loop computes [keyElts] and sets [fixed] exactly when its body
    runs; it never indexes or slices out of range. *)
Lemma rangeElts_spec (elts : list Expr) (fx : bool) :
  exists st,
    rangeElts (length elts) 0 (mkElts elts (length elts) fx) = Some st /\
    Elts st = keyElts elts /\
    fixed st = fx || firesElts elts.
Proof.
  destruct elts as [|a rest].
  { eexists; split; [done|]. split; [done|]. by rewrite orb_false_r. }
  cbn [length keyElts firesElts].
  destruct (isKeyValueExpr a) eqn:Ha.
  { eexists; split; [by eapply rangeElts_break|].
    unfold Elts; simpl. rewrite orb_false_r. by rewrite take_ge by lia. }
  erewrite rangeElts_step; [| reflexivity | exact Ha |]; cycle 1.
  { unfold rangeBody. rewrite setElt_in_range by (simpl; lia). reflexivity. }
  cbn [array len fixed]. simpl (negb false). rewrite orb_absorb_true.
  destruct rest as [|b rest].
  { eexists; split; [done|]. done. }
  cbn [length].
  destruct (isKeyValueExpr b) eqn:Hb.
  { eexists; split; [by eapply rangeElts_break|].
    unfold Elts; simpl. by rewrite take_ge by lia. }
  destruct (isZeroLit b) eqn:Hz.
  - erewrite rangeElts_step; [| reflexivity | exact Hb |]; cycle 1.
    { unfold rangeBody. rewrite Hz, deleteElt_in_range by (simpl; lia). reflexivity. }
    cbn [array len fixed].
    rewrite rangeElts_tail; cbn [array len fixed]; [|lia| |done].
    + eexists; split; [done|]. split; [|done].
      unfold Elts; cbn [array len]. simpl. f_equal.
      rewrite drop_0, (take_ge rest (length rest)) by lia.
      by rewrite take_app_length.
    + simpl. rewrite drop_0, (take_ge rest (length rest)) by lia.
      rewrite length_app, length_drop. simpl. lia.
  - erewrite rangeElts_step; [| reflexivity | exact Hb |]; cycle 1.
    { unfold rangeBody. rewrite Hz, setElt_in_range by (simpl; lia). reflexivity. }
    cbn [array len fixed].
    rewrite rangeElts_tail; cbn [array len fixed]; [|lia| |done].
    + eexists; split; [done|]. split; [|done].
      unfold Elts; cbn [array len]. simpl. by rewrite take_ge by lia.
    + simpl. lia.
Qed.

(** ** The callback *)

Lemma affectedType_unfold (x : Expr) (sel : option IdentT) :
  affectedType (Some (SelectorExpr x sel)) =
  negb (negb (IsTopName x "net") || negb (bool_decide (is_Some sel)))
  && (String.eqb (ast.String sel) "IPAddr" || String.eqb (ast.String sel) "UDPAddr"
      || String.eqb (ast.String sel) "TCPAddr").
Proof.
  destruct sel as [sel|]; simpl; by destruct (IsTopName x "net").
Qed.

(** The callback keys the literal it is given and sets [fixed] when the
    loop body ran; it never panics. *)
Lemma netipv6zoneVisit_spec (e : Expr) (fx : bool) :
  netipv6zoneVisit e fx = Some (keyLit e, fx || firesLit e).
Proof.
  assert (forall e' : Expr, Some (e', fx) = Some (e', fx || false)) as Hid
    by (intros; by rewrite orb_false_r).
  destruct e as [| |ty elts| | | | | | | |]; try apply Hid.
  destruct ty as [ty|]; [|apply Hid].
  destruct ty as [| | | |x sel| | | | | |]; try apply Hid.
  unfold netipv6zoneVisit, keyLit, firesLit.
  rewrite affectedType_unfold.
  destruct (negb (IsTopName x "net") || negb (bool_decide (is_Some sel)));
    [apply Hid|].
  simpl negb. rewrite andb_true_l.
  destruct (String.eqb (ast.String sel) "IPAddr" || String.eqb (ast.String sel) "UDPAddr"
            || String.eqb (ast.String sel) "TCPAddr"); [|apply Hid].
  destruct (rangeElts_spec elts fx) as (st & -> & HE & Hf).
  simpl. unfold retW. by rewrite HE, Hf.
Qed.

(** ** The walker on a callback that accumulates a flag *)

Section WalkPure.
Context {A : Type} (w : Walker bool A) (g : A -> A) (h : A -> bool).

Lemma walkList_pure (l : list A) :
  (forall x, x ∈ l -> forall s, w x s = Some (g x, s || h x)) ->
  forall s, walkList w l s = Some (g <$> l, s || existsb h l).
Proof.
  induction l as [|x l IH]; intros Hw s; simpl.
  - by rewrite orb_false_r.
  - rewrite Hw by left. simpl. rewrite IH by (intros; apply Hw; by right).
    simpl. unfold retW. by rewrite orb_assoc.
Qed.

Lemma walkOpt_pure (o : option A) :
  (forall x, o = Some x -> forall s, w x s = Some (g x, s || h x)) ->
  forall s, walkOpt w o s = Some (g <$> o, s || from_option h false o).
Proof.
  destruct o as [x|]; intros Hw s; simpl.
  - by rewrite Hw.
  - by rewrite orb_false_r.
Qed.
End WalkPure.

(** Membership of a node among the children of its parent. *)
Ltac in_children :=
  subst; cbn [exprChildren option_list];
  solve [ eassumption
        | apply list_elem_of_here
        | apply list_elem_of_further; in_children
        | apply elem_of_app; left; in_children
        | apply elem_of_app; right; in_children ].

Lemma walkExprChildren_pure (rec : Walker bool Expr) (g : Expr -> Expr)
    (h : Expr -> bool) (e : Expr) :
  (forall c, c ∈ exprChildren e -> forall s, rec c s = Some (g c, s || h c)) ->
  forall s, walkExprChildren rec e s =
            Some (mapExprChildren g e, s || existsb h (exprChildren e)).
Proof.
  intros Hrec s.
  destruct e as [| |ty elts|x|x sel|x i|x|op x|x op y|f args|k val];
    simpl in *; unfold retW;
    rewrite ?orb_false_r;
    repeat (rewrite Hrec by in_children; simpl); try done;
    rewrite <- ?orb_assoc; try done.
  - rewrite (walkOpt_pure rec g h) by (intros; apply Hrec; in_children).
    simpl.
    rewrite (walkList_pure rec g h) by (intros; apply Hrec; in_children).
    simpl. unfold retW. rewrite existsb_app. destruct ty; simpl;
      by rewrite ?orb_false_r, <- ?orb_assoc.
  - rewrite (walkList_pure rec g h) by (intros; apply Hrec; in_children).
    simpl. unfold retW. by rewrite <- ?orb_assoc.
Qed.

(** ** Expressions: depth, induction on children, the closed form *)

Lemma depthExpr_child (e c : Expr) :
  c ∈ exprChildren e -> depthExpr c < depthExpr e.
Proof.
  assert (forall l : list Expr, c ∈ l -> depthExpr c <= max_list (depthExpr <$> l))
    as Hl.
  { intros l Hc. apply max_list_elem_of_le. by apply list_elem_of_fmap_2. }
  destruct e as [| |ty elts|x|x sel|x i|x|op x|x op y|f args|k val];
    simpl; intros Hc.
  - set_solver.
  - set_solver.
  - apply elem_of_app in Hc as [Hc|Hc].
    + destruct ty as [ty|]; simpl in *; [|set_solver].
      apply list_elem_of_singleton in Hc as ->. lia.
    + specialize (Hl _ Hc). lia.
  - apply list_elem_of_singleton in Hc as ->. lia.
  - apply list_elem_of_singleton in Hc as ->. lia.
  - apply elem_of_cons in Hc as [->|Hc]; [lia|].
    apply list_elem_of_singleton in Hc as ->. lia.
  - apply list_elem_of_singleton in Hc as ->. lia.
  - apply list_elem_of_singleton in Hc as ->. lia.
  - apply elem_of_cons in Hc as [->|Hc]; [lia|].
    apply list_elem_of_singleton in Hc as ->. lia.
  - apply elem_of_cons in Hc as [->|Hc]; [lia|].
    specialize (Hl _ Hc). lia.
  - apply elem_of_cons in Hc as [->|Hc]; [lia|].
    apply list_elem_of_singleton in Hc as ->. lia.
Qed.

Lemma depthExpr_pos (e : Expr) : 1 <= depthExpr e.
Proof. destruct e; simpl; lia. Qed.

(** Induction over expressions: a property holds of a node as soon as it
    holds of its children. *)
Lemma Expr_children_ind (P : Expr -> Prop) :
  (forall e, (forall c, c ∈ exprChildren e -> P c) -> P e) ->
  forall e, P e.
Proof.
  intros Hstep e.
  remember (depthExpr e) as d eqn:Hd.
  revert e Hd. induction (lt_wf d) as [d _ IH]. intros e ->.
  apply Hstep. intros c Hc. eapply IH; [|done]. by apply depthExpr_child.
Qed.

Lemma rewriteExpr_unfold (e : Expr) :
  rewriteExpr e = keyLit (mapExprChildren rewriteExpr e).
Proof. by destruct e. Qed.

Lemma changesExpr_unfold (e : Expr) :
  changesExpr e = firesLit e || existsb changesExpr (exprChildren e).
Proof.
  destruct e as [| |ty elts|x|x sel|x i|x|op x|x op y|f args|k val];
    simpl; rewrite ?orb_false_r; try done.
  rewrite existsb_app. f_equal. f_equal. destruct ty; simpl; by rewrite ?orb_false_r.
Qed.

(** The rewrite keeps the kind of every node. *)
Lemma isKeyValueExpr_rewrite (e : Expr) :
  isKeyValueExpr (rewriteExpr e) = isKeyValueExpr e.
Proof.
  destruct e; try done. simpl. by destruct (affectedType _).
Qed.

Lemma isZeroLit_rewrite (e : Expr) : isZeroLit (rewriteExpr e) = isZeroLit e.
Proof.
  destruct e; try done. simpl. by destruct (affectedType _).
Qed.

Lemma IsTopName_rewrite (e : Expr) (name : string) :
  IsTopName (rewriteExpr e) name = IsTopName e name.
Proof.
  destruct e; try done. simpl. by destruct (affectedType _).
Qed.

Lemma affectedType_rewrite (ty : option Expr) :
  affectedType (rewriteExpr <$> ty) = affectedType ty.
Proof.
  destruct ty as [ty|]; [|done].
  destruct ty as [| |ty' elts| |x sel| | | | | |]; try done.
  - simpl. by destruct (affectedType _).
  - simpl. destruct sel; [|done]. by rewrite IsTopName_rewrite.
Qed.

Lemma keyElts_rewrite (elts : list Expr) :
  rewriteExpr <$> keyElts elts = keyElts (rewriteExpr <$> elts).
Proof.
  destruct elts as [|a [|b rest]]; [done| |]; cbn [keyElts fmap list_fmap].
  - rewrite isKeyValueExpr_rewrite. by destruct (isKeyValueExpr a).
  - rewrite !isKeyValueExpr_rewrite, isZeroLit_rewrite.
    destruct (isKeyValueExpr a); [done|].
    destruct (isKeyValueExpr b); [done|].
    by destruct (isZeroLit b).
Qed.

Lemma firesElts_rewrite (elts : list Expr) :
  firesElts (rewriteExpr <$> elts) = firesElts elts.
Proof. destruct elts; [done|]. simpl. by rewrite isKeyValueExpr_rewrite. Qed.

(** Keying a node and rewriting below it commute. *)
Lemma keyLit_mapExprChildren (e : Expr) :
  mapExprChildren rewriteExpr (keyLit e) = rewriteExpr e.
Proof.
  rewrite rewriteExpr_unfold.
  destruct e as [| |ty elts|x|x sel|x i|x|op x|x op y|f args|k val]; try done.
  cbn [keyLit mapExprChildren]. rewrite affectedType_rewrite.
  destruct (affectedType ty); [|done].
  cbn [mapExprChildren]. by rewrite keyElts_rewrite.
Qed.

Lemma keyElts_elem_of (c : Expr) (elts : list Expr) :
  c ∈ keyElts elts ->
  c ∈ elts \/ exists name a, c = KeyValueExpr (NewIdent name) a /\ a ∈ elts.
Proof.
  destruct elts as [|a [|b rest]]; [by left| |]; cbn [keyElts].
  - destruct (isKeyValueExpr a); [by left|]. intros Hc.
    apply list_elem_of_singleton in Hc as ->. right. exists "IP", a. set_solver.
  - destruct (isKeyValueExpr a); [by left|]. intros Hc.
    apply elem_of_cons in Hc as [->|Hc].
    { right. exists "IP", a. set_solver. }
    destruct (isKeyValueExpr b); [left; by right|].
    destruct (isZeroLit b); [left; by do 2 right|].
    apply elem_of_cons in Hc as [->|Hc]; [|left; by do 2 right].
    right. exists "Port", b. set_solver.
Qed.

Lemma keyLit_children (c e : Expr) :
  c ∈ exprChildren (keyLit e) ->
  c ∈ exprChildren e \/
  exists name a, c = KeyValueExpr (NewIdent name) a /\ a ∈ exprChildren e.
Proof.
  destruct e as [| |ty elts|x|x sel|x i|x|op x|x op y|f args|k val];
    try by left.
  cbn [keyLit]. destruct (affectedType ty); [|by left].
  cbn [exprChildren]. intros Hc. apply elem_of_app in Hc as [Hc|Hc].
  { left. set_solver. }
  apply keyElts_elem_of in Hc as [Hc|(name & a & -> & Ha)].
  - left. set_solver.
  - right. exists name, a. set_solver.
Qed.

Lemma changesExpr_zero (e : Expr) : isZeroLit e = true -> changesExpr e = false.
Proof. by destruct e. Qed.

Lemma existsb_changes_keyElts (elts : list Expr) :
  existsb changesExpr (keyElts elts) = existsb changesExpr elts.
Proof.
  destruct elts as [|a [|b rest]]; [done| |]; cbn [keyElts].
  - by destruct (isKeyValueExpr a).
  - destruct (isKeyValueExpr a); [done|].
    destruct (isKeyValueExpr b); [done|].
    destruct (isZeroLit b) eqn:Hz; [|done].
    simpl. by rewrite (changesExpr_zero b Hz).
Qed.

Lemma existsb_changes_keyLit (e : Expr) :
  existsb changesExpr (exprChildren (keyLit e)) =
  existsb changesExpr (exprChildren e).
Proof.
  destruct e as [| |ty elts|x|x sel|x i|x|op x|x op y|f args|k val]; try done.
  cbn [keyLit]. destruct (affectedType ty); [|done].
  cbn [exprChildren]. by rewrite !existsb_app, existsb_changes_keyElts.
Qed.

(** ** The walk of [netipv6zone] over an expression *)

Lemma walkExpr_S {St : Type} (v : Visitor St) (n : nat) (e : Expr) (s : St) :
  walkExpr v (S n) e s =
  bindW (visitExpr v e s) (walkExprChildren (walkExpr v n)).
Proof. done. Qed.

(** A pair the callback has just built: the walker passes through the new
    node and its key and goes on into the old element. *)
Lemma walkExpr_keyed (m : nat) (name : string) (a : Expr) :
  (forall s, walkExpr netipv6zoneVisitor (S m) a s
             = Some (rewriteExpr a, s || changesExpr a)) ->
  forall s, walkExpr netipv6zoneVisitor (S (S m)) (KeyValueExpr (NewIdent name) a) s
            = Some (rewriteExpr (KeyValueExpr (NewIdent name) a),
                    s || changesExpr (KeyValueExpr (NewIdent name) a)).
Proof.
  intros Ha s. rewrite walkExpr_S.
  cbn [visitExpr netipv6zoneVisitor netipv6zoneVisit bindW retW walkExprChildren].
  rewrite (walkExpr_S _ m (NewIdent name)).
  cbn [NewIdent visitExpr netipv6zoneVisitor netipv6zoneVisit bindW retW
       walkExprChildren].
  by rewrite Ha.
Qed.

(** With fuel for twice the depth, the walk returns the rewritten tree and
    has set [fixed] exactly when [changesExpr] says so. *)
Lemma walkExpr_netipv6zone (e : Expr) :
  forall n s, 2 * depthExpr e <= n ->
    walkExpr netipv6zoneVisitor n e s
    = Some (rewriteExpr e, s || changesExpr e).
Proof.
  induction e as [e IH] using Expr_children_ind. intros n s Hn.
  destruct n as [|m]; [pose proof (depthExpr_pos e); lia|].
  rewrite walkExpr_S.
  change (visitExpr netipv6zoneVisitor e s) with (netipv6zoneVisit e s).
  rewrite netipv6zoneVisit_spec. cbn [bindW].
  rewrite (walkExprChildren_pure _ rewriteExpr changesExpr).
  - rewrite keyLit_mapExprChildren, existsb_changes_keyLit.
    by rewrite changesExpr_unfold, orb_assoc.
  - intros c Hc. apply keyLit_children in Hc as [Hc|(name & a & -> & Ha)].
    + intros s'. apply IH; [done|]. apply depthExpr_child in Hc. lia.
    + pose proof (depthExpr_child _ _ Ha). pose proof (depthExpr_pos a).
      destruct m as [|[|m]]; [lia|lia|].
      apply walkExpr_keyed. intros s'. apply IH; [done|lia].
Qed.

(** ** The walk over statements, declarations and files *)

Lemma max_list_fmap_le {A : Type} (d : A -> nat) (l : list A) (x : A) :
  x ∈ l -> d x <= max_list (d <$> l).
Proof. intros Hx. apply max_list_elem_of_le. by apply list_elem_of_fmap_2. Qed.

Lemma walkExprs_netipv6zone (l : list Expr) (n : nat) (s : bool) :
  2 * max_list (depthExpr <$> l) <= n ->
  walkList (walkExpr netipv6zoneVisitor n) l s
  = Some (rewriteExpr <$> l, s || existsb changesExpr l).
Proof.
  intros Hn. apply walkList_pure. intros x Hx s'.
  apply walkExpr_netipv6zone. pose proof (max_list_fmap_le depthExpr l x Hx). lia.
Qed.

Lemma walkOptExpr_netipv6zone (o : option Expr) (n : nat) (s : bool) :
  2 * from_option depthExpr 0 o <= n ->
  walkOpt (walkExpr netipv6zoneVisitor n) o s
  = Some (rewriteExpr <$> o, s || from_option changesExpr false o).
Proof.
  intros Hn. apply walkOpt_pure. intros x -> s'.
  apply walkExpr_netipv6zone. simpl in Hn. lia.
Qed.

Lemma depthStmt_pos (st : Stmt) : 1 <= depthStmt st.
Proof. destruct st; simpl; lia. Qed.

Lemma walkStmt_netipv6zone (n : nat) :
  forall st s, 2 * depthStmt st <= n ->
    walkStmt netipv6zoneVisitor n st s
    = Some (rewriteStmt st, s || changesStmt st).
Proof.
  induction n as [|m IH]; intros st s Hn.
  { pose proof (depthStmt_pos st). lia. }
  assert (forall (l : list Stmt) s', 2 * max_list (depthStmt <$> l) <= m ->
            walkList (walkStmt netipv6zoneVisitor m) l s'
            = Some (rewriteStmt <$> l, s' || existsb changesStmt l)) as IHl.
  { intros l s' Hl. apply walkList_pure. intros x Hx s''. apply IH.
    pose proof (max_list_fmap_le depthStmt l x Hx). lia. }
  destruct st as [x|lhs tok rhs|rs|l|c body els];
    cbn [walkStmt visitStmt netipv6zoneVisitor retW bindW walkStmtChildren
         rewriteStmt changesStmt];
    cbn [depthStmt] in Hn.
  - by rewrite walkExpr_netipv6zone by lia.
  - rewrite walkExprs_netipv6zone by lia. cbn [bindW].
    rewrite walkExprs_netipv6zone by lia. cbn [bindW retW].
    by rewrite orb_assoc.
  - by rewrite walkExprs_netipv6zone by lia.
  - by rewrite IHl by lia.
  - rewrite walkExpr_netipv6zone by lia. cbn [bindW].
    rewrite IHl by lia. cbn [bindW].
    rewrite (walkOpt_pure _ rewriteStmt changesStmt).
    + cbn [bindW retW]. by rewrite !orb_assoc.
    + intros x -> s'. apply IH. simpl in Hn. lia.
Qed.

Lemma walkStmts_netipv6zone (l : list Stmt) (n : nat) (s : bool) :
  2 * max_list (depthStmt <$> l) <= n ->
  walkList (walkStmt netipv6zoneVisitor n) l s
  = Some (rewriteStmt <$> l, s || existsb changesStmt l).
Proof.
  intros Hn. apply walkList_pure. intros x Hx s'.
  apply walkStmt_netipv6zone. pose proof (max_list_fmap_le depthStmt l x Hx). lia.
Qed.

Lemma walkSpec_netipv6zone (sp : Spec) (n : nat) (s : bool) :
  2 * depthSpec sp <= n ->
  walkSpec netipv6zoneVisitor n sp s
  = Some (rewriteSpec sp, s || changesSpec sp).
Proof.
  intros Hn. destruct n as [|m]; [unfold depthSpec in Hn; lia|].
  destruct sp as [i|names ty vals];
    cbn [walkSpec visitSpec netipv6zoneVisitor retW bindW rewriteSpec changesSpec];
    unfold depthSpec in Hn.
  - by rewrite orb_false_r.
  - rewrite walkOptExpr_netipv6zone by lia. cbn [bindW].
    rewrite walkExprs_netipv6zone by lia. cbn [bindW].
    by rewrite orb_assoc.
Qed.

Lemma walkDecl_netipv6zone (d : Decl) (n : nat) (s : bool) :
  2 * depthDecl d <= n ->
  walkDecl netipv6zoneVisitor n d s
  = Some (rewriteDecl d, s || changesDecl d).
Proof.
  intros Hn. destruct n as [|m]; [unfold depthDecl in Hn; lia|].
  destruct d as [tok specs|name body];
    cbn [walkDecl visitDecl netipv6zoneVisitor retW bindW rewriteDecl changesDecl];
    unfold depthDecl in Hn.
  - rewrite (walkList_pure _ rewriteSpec changesSpec); [done|].
    intros x Hx s'. apply walkSpec_netipv6zone.
    pose proof (max_list_fmap_le depthSpec specs x Hx). lia.
  - rewrite (walkOpt_pure _ (fmap rewriteStmt) (existsb changesStmt)); [done|].
    intros l -> s'. apply walkStmts_netipv6zone. simpl in Hn. lia.
Qed.

Lemma Walk_netipv6zone (f : File) (n : nat) (s : bool) :
  2 * depthFile f <= n ->
  Walk netipv6zoneVisitor n f s = Some (rewriteFile f, s || changesFile f).
Proof.
  intros Hn. unfold depthFile in Hn. destruct n as [|m]; [lia|].
  cbn [Walk visitFile netipv6zoneVisitor retW bindW].
  rewrite (walkList_pure _ rewriteDecl changesDecl); [done|].
  intros x Hx s'. apply walkDecl_netipv6zone.
  pose proof (max_list_fmap_le depthDecl (Decls f) x Hx). lia.
Qed.

(** [netipv6zone] returns, and what it returns, for any fuel from
    [enoughFuel] on. *)
Lemma netipv6zone_spec (f : File) (n : nat) :
  enoughFuel f <= n ->
  netipv6zone n f =
  Some (if fixpkg.Imports f "net" then (rewriteFile f, changesFile f)
        else (f, false)).
Proof.
  intros Hn. unfold netipv6zone.
  destruct (fixpkg.Imports f "net"); [|done]. simpl.
  by rewrite Walk_netipv6zone.
Qed.

(** ** More fuel never changes a result

    This holds for every callback, not only for the one of the fix. *)

Section FuelMono.
Context {St : Type}.

Lemma bindW_Some {A B : Type} (m : option (A * St))
    (k : A -> St -> option (B * St)) (r : B * St) :
  bindW m k = Some r -> exists a s, m = Some (a, s) /\ k a s = Some r.
Proof. destruct m as [[a s]|]; [|done]. intros Hk. by exists a, s. Qed.

Lemma bindW_extends {A B : Type} (m m' : option (A * St))
    (k k' : A -> St -> option (B * St)) (r : B * St) :
  (forall p, m = Some p -> m' = Some p) ->
  (forall a s r', k a s = Some r' -> k' a s = Some r') ->
  bindW m k = Some r -> bindW m' k' = Some r.
Proof.
  intros Hm Hk Hb. apply bindW_Some in Hb as (a & s & Ha & Hr).
  rewrite (Hm _ Ha). simpl. by apply Hk.
Qed.

Lemma walkList_extends {A : Type} (w w' : Walker St A) :
  extends w w' -> extends (walkList w) (walkList w').
Proof.
  intros Hw l. induction l as [|x l IH]; intros s r; [done|].
  cbn [walkList]. apply bindW_extends; [by apply Hw|].
  intros a s1 r1. apply bindW_extends; [by apply IH|done].
Qed.

Lemma walkOpt_extends {A : Type} (w w' : Walker St A) :
  extends w w' -> extends (walkOpt w) (walkOpt w').
Proof.
  intros Hw [x|] s r; [|done].
  cbn [walkOpt]. apply bindW_extends; [by apply Hw|done].
Qed.

Lemma walkExprChildren_extends (rec rec' : Walker St Expr) :
  extends rec rec' -> extends (walkExprChildren rec) (walkExprChildren rec').
Proof.
  intros Hrec e s r.
  pose proof (walkList_extends _ _ Hrec) as Hl.
  pose proof (walkOpt_extends _ _ Hrec) as Ho.
  destruct e; cbn [walkExprChildren]; try done;
    repeat (apply bindW_extends; [by (apply Hrec || apply Hl || apply Ho)|];
            intros ? ? ?); done.
Qed.

Lemma walkStmtChildren_extends (recE recE' : Walker St Expr)
    (rec rec' : Walker St Stmt) :
  extends recE recE' -> extends rec rec' ->
  extends (walkStmtChildren recE rec) (walkStmtChildren recE' rec').
Proof.
  intros HrecE Hrec st s r.
  pose proof (walkList_extends _ _ HrecE) as HlE.
  pose proof (walkList_extends _ _ Hrec) as Hl.
  pose proof (walkOpt_extends _ _ Hrec) as Ho.
  destruct st; cbn [walkStmtChildren];
    repeat (apply bindW_extends;
            [by (apply HrecE || apply Hrec || apply HlE || apply Hl || apply Ho)|];
            intros ? ? ?); done.
Qed.

Context (v : Visitor St).

Lemma walkExpr_fuel_S (n : nat) : extends (walkExpr v n) (walkExpr v (S n)).
Proof.
  induction n as [|n IH]; intros e s r; [done|].
  rewrite !walkExpr_S. apply bindW_extends; [done|].
  by apply walkExprChildren_extends.
Qed.

Lemma walkExpr_fuel_mono (n m : nat) :
  n <= m -> extends (walkExpr v n) (walkExpr v m).
Proof.
  induction 1 as [|m Hle IH]; [by intros e s r|].
  intros e s r Hr. by apply walkExpr_fuel_S, IH.
Qed.

Lemma walkStmt_fuel_mono (n m : nat) :
  n <= m -> extends (walkStmt v n) (walkStmt v m).
Proof.
  revert m. induction n as [|n IH]; intros m Hnm st s r; [done|].
  destruct m as [|m]; [lia|].
  cbn [walkStmt]. apply bindW_extends; [done|].
  apply walkStmtChildren_extends.
  - apply walkExpr_fuel_mono. lia.
  - apply IH. lia.
Qed.

Lemma walkSpec_fuel_mono (n m : nat) :
  n <= m -> extends (walkSpec v n) (walkSpec v m).
Proof.
  intros Hnm sp s r. destruct n as [|n]; [done|]. destruct m as [|m]; [lia|].
  assert (extends (walkExpr v n) (walkExpr v m)) as HE
    by (apply walkExpr_fuel_mono; lia).
  cbn [walkSpec]. apply bindW_extends; [done|].
  intros [i|names ty vals] s1 r1; [done|].
  apply bindW_extends; [by apply walkOpt_extends|]. intros ? ? ?.
  apply bindW_extends; [by apply walkList_extends|]. done.
Qed.

Lemma walkDecl_fuel_mono (n m : nat) :
  n <= m -> extends (walkDecl v n) (walkDecl v m).
Proof.
  intros Hnm d s r. destruct n as [|n]; [done|]. destruct m as [|m]; [lia|].
  cbn [walkDecl]. apply bindW_extends; [done|].
  intros [tok specs|name body] s1 r1.
  - apply bindW_extends; [|done].
    apply walkList_extends, walkSpec_fuel_mono. lia.
  - apply bindW_extends; [|done].
    apply walkOpt_extends, walkList_extends, walkStmt_fuel_mono. lia.
Qed.

Lemma Walk_fuel_mono (n m : nat) : n <= m -> extends (Walk v n) (Walk v m).
Proof.
  intros Hnm f s r. destruct n as [|n]; [done|]. destruct m as [|m]; [lia|].
  cbn [Walk]. apply bindW_extends; [done|]. intros f1 s1 r1.
  apply bindW_extends; [|done].
  apply walkList_extends, walkDecl_fuel_mono. lia.
Qed.
End FuelMono.

Lemma netipv6zone_fuel_mono (n m : nat) (f : File) (r : File * bool) :
  n <= m -> netipv6zone n f = Some r -> netipv6zone m f = Some r.
Proof.
  intros Hnm. unfold netipv6zone.
  destruct (negb (fixpkg.Imports f "net")); [done|].
  by apply Walk_fuel_mono.
Qed.

(** Whatever fuel [netipv6zone] returns with, it returns the closed form. *)
Lemma netipv6zone_returns_spec (f : File) (n : nat) (r : File * bool) :
  netipv6zone n f = Some r ->
  r = if fixpkg.Imports f "net" then (rewriteFile f, changesFile f)
      else (f, false).
Proof.
  intros Hr.
  apply (netipv6zone_fuel_mono n (n `max` enoughFuel f)) in Hr; [|lia].
  rewrite netipv6zone_spec in Hr by lia. congruence.
Qed.

(** ** The flag and the tree: [changes] holds exactly when [rewrite] moves *)

Section FixedPoints.
Context {A : Type} (g : A -> A) (h : A -> bool).

Lemma list_fixed_iff (l : list A) :
  (forall x, x ∈ l -> g x = x <-> h x = false) ->
  g <$> l = l <-> existsb h l = false.
Proof.
  induction l as [|x l IH]; intros Hx; [done|].
  assert (g x = x <-> h x = false) as Hhd by (apply Hx; left).
  assert (g <$> l = l <-> existsb h l = false) as Htl
    by (apply IH; intros; apply Hx; by right).
  cbn [fmap list_fmap existsb]. rewrite orb_false_iff, <- Hhd, <- Htl.
  split; [by intros [= ? ?]|by intros [-> ->]].
Qed.

Lemma option_fixed_iff (o : option A) :
  (forall x, o = Some x -> g x = x <-> h x = false) ->
  g <$> o = o <-> from_option h false o = false.
Proof.
  destruct o as [x|]; intros Hx; [|done]. simpl.
  rewrite <- (Hx x) by done. split; [by intros [= ?]|by intros ->].
Qed.

Lemma list_fmap_idem (l : list A) :
  (forall x, x ∈ l -> g (g x) = g x) -> g <$> (g <$> l) = g <$> l.
Proof.
  induction l as [|x l IH]; intros Hx; [done|].
  rewrite !fmap_cons. f_equal; [apply Hx; left|].
  apply IH. intros; apply Hx; by right.
Qed.

Lemma option_fmap_idem (o : option A) :
  (forall x, o = Some x -> g (g x) = g x) -> g <$> (g <$> o) = g <$> o.
Proof. destruct o as [x|]; intros Hx; [|done]. simpl. by rewrite Hx. Qed.
End FixedPoints.

Lemma mapExprChildren_fixed_iff (g : Expr -> Expr) (h : Expr -> bool) (e : Expr) :
  (forall c, c ∈ exprChildren e -> g c = c <-> h c = false) ->
  mapExprChildren g e = e <-> existsb h (exprChildren e) = false.
Proof.
  intros Hc.
  destruct e as [| |ty elts|x|x sel|x i|x|op x|x op y|f args|k val];
    simpl in *; rewrite ?orb_false_r, ?orb_false_iff; try done.
  - rewrite existsb_app, orb_false_iff.
    rewrite <- (list_fixed_iff g h elts) by (intros; apply Hc; in_children).
    assert (g <$> ty = ty <-> existsb h (option_list ty) = false) as <-.
    { destruct ty as [ty|]; simpl; [|done]. rewrite orb_false_r.
      rewrite <- (Hc ty) by in_children. split; [by intros [= ?]|by intros ->]. }
    split; [by intros [= ? ?]|by intros [-> ->]].
  - rewrite <- (Hc x) by in_children. split; [by intros [= ?]|by intros ->].
  - rewrite <- (Hc x) by in_children. split; [by intros [= ?]|by intros ->].
  - rewrite <- (Hc x), <- (Hc i) by in_children.
    split; [by intros [= ? ?]|by intros [-> ->]].
  - rewrite <- (Hc x) by in_children. split; [by intros [= ?]|by intros ->].
  - rewrite <- (Hc x) by in_children. split; [by intros [= ?]|by intros ->].
  - rewrite <- (Hc x), <- (Hc y) by in_children.
    split; [by intros [= ? ?]|by intros [-> ->]].
  - rewrite <- (Hc f) by in_children.
    rewrite <- (list_fixed_iff g h args) by (intros; apply Hc; in_children).
    split; [by intros [= ? ?]|by intros [-> ->]].
  - rewrite <- (Hc k), <- (Hc val) by in_children.
    split; [by intros [= ? ?]|by intros [-> ->]].
Qed.

Lemma keyElts_quiet (elts : list Expr) :
  firesElts elts = false -> keyElts elts = elts.
Proof.
  destruct elts as [|a rest]; [done|]. simpl. by destruct (isKeyValueExpr a).
Qed.

Lemma keyElts_moves (elts : list Expr) (elts' : list Expr) :
  firesElts elts = true -> firesElts elts' = true -> keyElts elts' <> elts.
Proof.
  destruct elts as [|a rest]; [done|]. destruct elts' as [|a' rest']; [done|].
  simpl. destruct (isKeyValueExpr a) eqn:Ha; [done|].
  destruct (isKeyValueExpr a'); [done|]. intros _ _ [= <- _]. done.
Qed.

Lemma firesLit_mapExprChildren (e : Expr) :
  firesLit (mapExprChildren rewriteExpr e) = firesLit e.
Proof.
  destruct e; try done. simpl.
  by rewrite affectedType_rewrite, firesElts_rewrite.
Qed.

Lemma keyLit_quiet (e : Expr) : firesLit e = false -> keyLit e = e.
Proof.
  destruct e as [| |ty elts| | | | | | | |]; try done. simpl.
  destruct (affectedType ty); [|done]. simpl. intros Hf.
  by rewrite keyElts_quiet.
Qed.

(** The rewritten tree is the input exactly when the flag stays unset. *)
Lemma rewriteExpr_fixed_iff (e : Expr) :
  rewriteExpr e = e <-> changesExpr e = false.
Proof.
  induction e as [e IH] using Expr_children_ind.
  rewrite rewriteExpr_unfold, changesExpr_unfold, orb_false_iff.
  destruct (firesLit e) eqn:Hf.
  - split; [|by intros [? _]]. intros Heq. exfalso.
    destruct e as [| |ty elts| | | | | | | |]; try done.
    simpl in Hf. apply andb_true_iff in Hf as [Hty Hf].
    cbn [mapExprChildren keyLit] in Heq.
    rewrite affectedType_rewrite, Hty in Heq. injection Heq as _ Heq.
    apply keyElts_moves in Heq; [done|done|by rewrite firesElts_rewrite].
  - rewrite keyLit_quiet by (by rewrite firesLit_mapExprChildren).
    rewrite (mapExprChildren_fixed_iff rewriteExpr changesExpr) by done.
    split; [done|by intros [_ ?]].
Qed.

(** ** Rewriting twice *)

Lemma mapExprChildren_idem (g : Expr -> Expr) (e : Expr) :
  (forall c, c ∈ exprChildren e -> g (g c) = g c) ->
  mapExprChildren g (mapExprChildren g e) = mapExprChildren g e.
Proof.
  intros Hc.
  destruct e as [| |ty elts|x|x sel|x i|x|op x|x op y|f args|k val];
    simpl in *; try done;
    rewrite ?(list_fmap_idem g) by (intros; apply Hc; in_children);
    rewrite ?(option_fmap_idem g) by (intros; apply Hc; in_children);
    rewrite ?Hc by in_children; done.
Qed.

Lemma keyElts_idem (elts : list Expr) : keyElts (keyElts elts) = keyElts elts.
Proof.
  destruct elts as [|a rest]; [done|]. simpl.
  destruct (isKeyValueExpr a) eqn:Ha; simpl; by rewrite ?Ha.
Qed.

Lemma keyLit_idem (e : Expr) : keyLit (keyLit e) = keyLit e.
Proof.
  destruct e as [| |ty elts| | | | | | | |]; try done. simpl.
  destruct (affectedType ty) eqn:Hty; simpl; rewrite Hty; [|done].
  by rewrite keyElts_idem.
Qed.

Lemma rewriteExpr_idem (e : Expr) : rewriteExpr (rewriteExpr e) = rewriteExpr e.
Proof.
  induction e as [e IH] using Expr_children_ind.
  rewrite (rewriteExpr_unfold (rewriteExpr e)).
  rewrite (rewriteExpr_unfold e) at 1.
  rewrite keyLit_mapExprChildren, rewriteExpr_unfold.
  rewrite mapExprChildren_idem by done.
  rewrite keyLit_idem. by rewrite <- rewriteExpr_unfold.
Qed.

(** ** Statements, declarations and files: flag and tree, rewriting twice *)

Lemma depthStmt_child (st c : Stmt) :
  c ∈ stmtChildren st -> depthStmt c < depthStmt st.
Proof.
  destruct st as [x|lhs tok rhs|rs|l|cnd body els]; simpl; intros Hc;
    try by apply elem_of_nil in Hc.
  - pose proof (max_list_fmap_le depthStmt l c Hc). lia.
  - apply elem_of_app in Hc as [Hc|Hc].
    + pose proof (max_list_fmap_le depthStmt body c Hc). lia.
    + destruct els as [els|]; simpl in Hc; [|by apply elem_of_nil in Hc].
      apply list_elem_of_singleton in Hc as ->. simpl. lia.
Qed.

Lemma Stmt_children_ind (P : Stmt -> Prop) :
  (forall st, (forall c, c ∈ stmtChildren st -> P c) -> P st) ->
  forall st, P st.
Proof.
  intros Hstep st.
  remember (depthStmt st) as d eqn:Hd.
  revert st Hd. induction (lt_wf d) as [d _ IH]. intros st ->.
  apply Hstep. intros c Hc. eapply IH; [|done]. by apply depthStmt_child.
Qed.

Lemma rewriteExprs_fixed_iff (l : list Expr) :
  rewriteExpr <$> l = l <-> existsb changesExpr l = false.
Proof. apply list_fixed_iff. intros x _. apply rewriteExpr_fixed_iff. Qed.

Lemma rewriteOptExpr_fixed_iff (o : option Expr) :
  rewriteExpr <$> o = o <-> from_option changesExpr false o = false.
Proof. apply option_fixed_iff. intros x _. apply rewriteExpr_fixed_iff. Qed.

Lemma rewriteStmt_fixed_iff (st : Stmt) :
  rewriteStmt st = st <-> changesStmt st = false.
Proof.
  induction st as [st IH] using Stmt_children_ind.
  destruct st as [x|lhs tok rhs|rs|l|cnd body els];
    cbn [rewriteStmt changesStmt]; rewrite ?orb_false_iff.
  - rewrite <- rewriteExpr_fixed_iff. split; [by intros [= ?]|by intros ->].
  - rewrite <- !rewriteExprs_fixed_iff.
    split; [by intros [= ? ?]|by intros [-> ->]].
  - rewrite <- rewriteExprs_fixed_iff. split; [by intros [= ?]|by intros ->].
  - rewrite <- (list_fixed_iff rewriteStmt changesStmt) by (intros; by apply IH).
    split; [by intros [= ?]|by intros ->].
  - rewrite <- rewriteExpr_fixed_iff.
    rewrite <- (list_fixed_iff rewriteStmt changesStmt body)
      by (intros; apply IH; simpl; apply elem_of_app; by left).
    rewrite <- (option_fixed_iff rewriteStmt changesStmt els)
      by (intros x ->; apply IH; simpl; apply elem_of_app; right; by left).
    split; [by intros [= ? ? ?]|by intros [[-> ->] ->]].
Qed.

Lemma rewriteSpec_fixed_iff (sp : Spec) :
  rewriteSpec sp = sp <-> changesSpec sp = false.
Proof.
  destruct sp as [i|names ty vals]; [done|].
  cbn [rewriteSpec changesSpec]. rewrite orb_false_iff.
  rewrite <- rewriteOptExpr_fixed_iff, <- rewriteExprs_fixed_iff.
  split; [by intros [= ? ?]|by intros [-> ->]].
Qed.

Lemma rewriteDecl_fixed_iff (d : Decl) :
  rewriteDecl d = d <-> changesDecl d = false.
Proof.
  destruct d as [tok specs|name body]; cbn [rewriteDecl changesDecl].
  - rewrite <- (list_fixed_iff rewriteSpec changesSpec)
      by (intros; apply rewriteSpec_fixed_iff).
    split; [by intros [= ?]|by intros ->].
  - rewrite <- (option_fixed_iff (fmap rewriteStmt) (existsb changesStmt)).
    + split; [by intros [= ?]|by intros ->].
    + intros l _. apply list_fixed_iff. intros; apply rewriteStmt_fixed_iff.
Qed.

Lemma rewriteFile_fixed_iff (f : File) :
  rewriteFile f = f <-> changesFile f = false.
Proof.
  destruct f as [name decls imports]. unfold rewriteFile, changesFile. simpl.
  rewrite <- (list_fixed_iff rewriteDecl changesDecl)
    by (intros; apply rewriteDecl_fixed_iff).
  split; [by intros [= ?]|by intros ->].
Qed.

Lemma rewriteStmt_idem (st : Stmt) : rewriteStmt (rewriteStmt st) = rewriteStmt st.
Proof.
  induction st as [st IH] using Stmt_children_ind.
  destruct st as [x|lhs tok rhs|rs|l|cnd body els]; cbn [rewriteStmt].
  - by rewrite rewriteExpr_idem.
  - by rewrite !(list_fmap_idem rewriteExpr) by (intros; apply rewriteExpr_idem).
  - by rewrite !(list_fmap_idem rewriteExpr) by (intros; apply rewriteExpr_idem).
  - by rewrite (list_fmap_idem rewriteStmt) by (intros; by apply IH).
  - rewrite rewriteExpr_idem.
    rewrite (list_fmap_idem rewriteStmt)
      by (intros; apply IH; simpl; apply elem_of_app; by left).
    by rewrite (option_fmap_idem rewriteStmt)
      by (intros x ->; apply IH; simpl; apply elem_of_app; right; by left).
Qed.

Lemma rewriteSpec_idem (sp : Spec) : rewriteSpec (rewriteSpec sp) = rewriteSpec sp.
Proof.
  destruct sp as [i|names ty vals]; [done|]. cbn [rewriteSpec].
  rewrite (list_fmap_idem rewriteExpr) by (intros; apply rewriteExpr_idem).
  by rewrite (option_fmap_idem rewriteExpr) by (intros; apply rewriteExpr_idem).
Qed.

Lemma rewriteDecl_idem (d : Decl) : rewriteDecl (rewriteDecl d) = rewriteDecl d.
Proof.
  destruct d as [tok specs|name body]; cbn [rewriteDecl].
  - by rewrite (list_fmap_idem rewriteSpec) by (intros; apply rewriteSpec_idem).
  - rewrite (option_fmap_idem (fmap rewriteStmt)); [done|].
    intros l _. apply list_fmap_idem. intros; apply rewriteStmt_idem.
Qed.

Lemma rewriteFile_idem (f : File) : rewriteFile (rewriteFile f) = rewriteFile f.
Proof.
  unfold rewriteFile. simpl.
  by rewrite (list_fmap_idem rewriteDecl) by (intros; apply rewriteDecl_idem).
Qed.

Lemma changesFile_rewriteFile (f : File) : changesFile (rewriteFile f) = false.
Proof. apply rewriteFile_fixed_iff, rewriteFile_idem. Qed.

Lemma Imports_rewriteFile (f : File) (path : string) :
  fixpkg.Imports (rewriteFile f) path = fixpkg.Imports f path.
Proof. done. Qed.

(** * The properties of the fix *)

Lemma netipv6zone_returns (f : File) :
  returns f (if fixpkg.Imports f "net" then rewriteFile f else f)
            (if fixpkg.Imports f "net" then changesFile f else false).
Proof.
  exists (enoughFuel f). rewrite netipv6zone_spec by done.
  by destruct (fixpkg.Imports f "net").
Qed.

Lemma keyElts_positional (elts : list Expr) :
  positional elts = true -> keyElts elts = keyedByPosition elts.
Proof.
  destruct elts as [|a [|b rest]]; [done| |]; simpl.
  - rewrite andb_true_r. by intros ->%negb_true_iff.
  - intros [->%negb_true_iff [->%negb_true_iff _]%andb_true_iff]%andb_true_iff.
    done.
Qed.

Lemma positional_rewrite (elts : list Expr) :
  positional (rewriteExpr <$> elts) = positional elts.
Proof.
  induction elts as [|a elts IH]; [done|]. simpl.
  by rewrite isKeyValueExpr_rewrite, <- IH.
Qed.

(** C1. In a file that imports "net", the transform returns the tree in
    which every composite literal of type net.IPAddr, net.UDPAddr or
    net.TCPAddr is keyed; an all-positional literal of such a type is
    keyed by position: element 0 becomes [IP: e0], element 1 is deleted
    when it is the literal 0 and becomes [Port: e1] otherwise. This holds
    of the callback at the literal and of the whole walk, which also keys
    the literals nested in the elements. *)
Theorem netipv6zone_keys_positional_literals
    (f : File) (ty : option Expr) (elts : list Expr) :
  fixpkg.Imports f "net" = true ->
  affectedType ty = true ->
  positional elts = true ->
  returns f (rewriteFile f) (changesFile f) /\
  (forall fx, fst <$> netipv6zoneVisit (CompositeLit ty elts) fx
              = Some (CompositeLit ty (keyedByPosition elts))) /\
  rewriteExpr (CompositeLit ty elts)
  = CompositeLit (rewriteExpr <$> ty) (keyedByPosition (rewriteExpr <$> elts)).
Proof.
  intros Himp Hty Hpos. split; [|split].
  - pose proof (netipv6zone_returns f) as Hr. by rewrite Himp in Hr.
  - intros fx. rewrite netipv6zoneVisit_spec. simpl.
    by rewrite Hty, keyElts_positional.
  - rewrite rewriteExpr_unfold. cbn [mapExprChildren keyLit].
    rewrite affectedType_rewrite, Hty.
    by rewrite keyElts_positional by (by rewrite positional_rewrite).
Qed.

(** The test case netipv6zone.0: the five literals of the specification
    ([&X{ip1}], [&X{ip2, 12345}], [&X{IP: ip3, Port: 54321}], [&X{ip4, 0}],
    [&X{ip4, p}]) and [&X{ip5}], in one file. *)
Lemma netipv6zone_test_case :
  returns tests.In tests.Out true /\
  (forall fx, fst <$> netipv6zoneVisit
                (CompositeLit examples.IPAddr [tests.id "ip2"; tests.int "12345"]) fx
              = Some (CompositeLit examples.IPAddr
                        [tests.kv "IP" (tests.id "ip2");
                         tests.kv "Port" (tests.int "12345")])).
Proof.
  destruct (netipv6zone_keys_positional_literals tests.In examples.IPAddr
              [tests.id "ip2"; tests.int "12345"]) as (Hr & Hv & _);
    [reflexivity..|].
  split; [exact Hr | exact Hv].
Defined.

(** C2. The flag [netipv6zone] returns is true exactly when the tree it
    leaves differs from the tree it was given. *)
Theorem netipv6zone_changed_flag_honest (f : File) :
  exists f' b, returns f f' b /\ (b = true <-> f' <> f).
Proof.
  eexists _, _. split; [apply netipv6zone_returns|].
  destruct (fixpkg.Imports f "net"); [|by split].
  rewrite <- not_false_iff_true, <- rewriteFile_fixed_iff. done.
Qed.

(** C3, as the specification has it, fails: a literal whose second element
    is a key/value pair and whose first is positional is rewritten. *)
Lemma partly_keyed_literal_is_rewritten :
  affectedType examples.IPAddr = true /\
  existsb isKeyValueExpr examples.mixedElts = true /\
  netipv6zoneVisit (CompositeLit examples.IPAddr examples.mixedElts) false
  = Some (CompositeLit examples.IPAddr examples.mixedEltsAfter, true) /\
  examples.mixedEltsAfter <> examples.mixedElts /\
  netipv6zone 8 (examples.mixedFile examples.mixedElts)
  = Some (examples.mixedFile examples.mixedEltsAfter, true).
Proof. repeat split; try reflexivity. discriminate. Qed.

Lemma keyElts_prefix (pre : list Expr) (kv : Expr) (post : list Expr) :
  positional pre = true -> isKeyValueExpr kv = true ->
  keyElts (pre ++ kv :: post) = keyedByPosition pre ++ kv :: post.
Proof.
  intros Hpre Hkv. destruct pre as [|a [|b rest]]; simpl in *.
  - by rewrite Hkv.
  - rewrite andb_true_r in Hpre. apply negb_true_iff in Hpre as ->.
    by rewrite Hkv.
  - apply andb_true_iff in Hpre as [->%negb_true_iff Hpre].
    apply andb_true_iff in Hpre as [->%negb_true_iff _].
    by destruct (isZeroLit b).
Qed.

(** C3, amended. A literal of an affected type whose first element is a
    key/value pair is left untouched by the callback, and the flag with
    it. When positional elements come before the first key/value pair,
    they are keyed by position as in an all-positional literal, the flag
    is set, and the elements from that pair on are kept as they are. *)
Theorem netipv6zone_keeps_from_first_pair
    (ty : option Expr) (pre : list Expr) (kv : Expr) (post : list Expr)
    (fx : bool) :
  affectedType ty = true ->
  positional pre = true ->
  isKeyValueExpr kv = true ->
  netipv6zoneVisit (CompositeLit ty (kv :: post)) fx
  = Some (CompositeLit ty (kv :: post), fx) /\
  netipv6zoneVisit (CompositeLit ty (pre ++ kv :: post)) fx
  = Some (CompositeLit ty (keyedByPosition pre ++ kv :: post),
          match pre with [] => fx | _ :: _ => true end).
Proof.
  intros Hty Hpre Hkv. rewrite !netipv6zoneVisit_spec. simpl keyLit.
  rewrite Hty. split.
  - simpl. by rewrite Hkv, andb_false_r, orb_false_r.
  - rewrite keyElts_prefix by done. f_equal. f_equal.
    destruct pre as [|a pre]; simpl in *.
    + by rewrite Hkv, andb_false_r, orb_false_r.
    + apply andb_true_iff in Hpre as [-> _]. by rewrite Hty, orb_absorb_true.
Qed.

Lemma netipv6zone_keeps_from_first_pair_witness :
  netipv6zoneVisit (CompositeLit examples.IPAddr
                      [tests.kv "IP" (tests.id "ip3"); tests.kv "Port" (tests.int "54321")])
                   false
  = Some (CompositeLit examples.IPAddr
            [tests.kv "IP" (tests.id "ip3"); tests.kv "Port" (tests.int "54321")],
          false) /\
  netipv6zoneVisit (CompositeLit examples.IPAddr examples.mixedElts) false
  = Some (CompositeLit examples.IPAddr examples.mixedEltsAfter, true).
Proof.
  split.
  - apply (netipv6zone_keeps_from_first_pair examples.IPAddr []
             (tests.kv "IP" (tests.id "ip3"))
             [tests.kv "Port" (tests.int "54321")] false); reflexivity.
  - apply (netipv6zone_keeps_from_first_pair examples.IPAddr [tests.id "ip"]
             (tests.kv "Zone" (tests.id "z")) [] false); reflexivity.
Defined.

(** C4. Running the transform on its own result changes nothing and
    returns false. *)
Theorem netipv6zone_idempotent (f : File) :
  exists f1 b, returns f f1 b /\ returns f1 f1 false.
Proof.
  eexists _, _. split; [apply netipv6zone_returns|].
  pose proof (netipv6zone_returns
                (if fixpkg.Imports f "net" then rewriteFile f else f)) as Hr.
  destruct (fixpkg.Imports f "net") eqn:Himp.
  - by rewrite Imports_rewriteFile, Himp, rewriteFile_idem,
      changesFile_rewriteFile in Hr.
  - by rewrite Himp in Hr.
Qed.

(** C5. On a file that does not import "net" the transform returns false
    at once and leaves the tree as it is, whatever the fuel. *)
Theorem netipv6zone_needs_net_import (f : File) (fuel : nat) :
  fixpkg.Imports f "net" = false ->
  netipv6zone fuel f = Some (f, false).
Proof. intros Himp. unfold netipv6zone. by rewrite Himp. Qed.

Lemma netipv6zone_needs_net_import_witness :
  netipv6zone 0 examples.noImports = Some (examples.noImports, false).
Proof. apply netipv6zone_needs_net_import. reflexivity. Defined.

(** C6. Only composite literals of type net.IPAddr, net.UDPAddr or
    net.TCPAddr are modified. On any other expression node (a composite
    literal of another type included) the callback returns the node and the
    flag as they are, and the walker goes straight on to the children; the
    tree after the walk has the same node with rewritten children. On a
    statement, a spec, a declaration or the file node the callback does
    nothing at all. *)
Theorem netipv6zone_frame (e : Expr) :
  isAffectedLit e = false ->
  (forall fx, netipv6zoneVisit e fx = Some (e, fx)) /\
  (forall n s, walkExpr netipv6zoneVisitor (S n) e s
               = walkExprChildren (walkExpr netipv6zoneVisitor n) e s) /\
  rewriteExpr e = mapExprChildren rewriteExpr e /\
  (forall st s, visitStmt netipv6zoneVisitor st s = Some (st, s)) /\
  (forall sp s, visitSpec netipv6zoneVisitor sp s = Some (sp, s)) /\
  (forall d s, visitDecl netipv6zoneVisitor d s = Some (d, s)) /\
  (forall f s, visitFile netipv6zoneVisitor f s = Some (f, s)).
Proof.
  intros He.
  assert (keyLit e = e /\ firesLit e = false) as [Hk Hf].
  { destruct e as [| |ty elts| | | | | | | |]; try done.
    simpl in *. by rewrite He. }
  assert (forall fx, netipv6zoneVisit e fx = Some (e, fx)) as Hv.
  { intros fx. by rewrite netipv6zoneVisit_spec, Hk, Hf, orb_false_r. }
  repeat split; try done.
  - intros n s. rewrite walkExpr_S.
    change (visitExpr netipv6zoneVisitor e s) with (netipv6zoneVisit e s).
    by rewrite Hv.
  - rewrite rewriteExpr_unfold. apply keyLit_quiet.
    rewrite firesLit_mapExprChildren. done.
Qed.

Lemma netipv6zone_frame_witness :
  netipv6zoneVisit
    (CompositeLit (Some (tests.sel "net" "IPNet")) [tests.id "ip"; tests.id "mask"])
    false
  = Some (CompositeLit (Some (tests.sel "net" "IPNet"))
            [tests.id "ip"; tests.id "mask"], false).
Proof.
  apply (netipv6zone_frame
           (CompositeLit (Some (tests.sel "net" "IPNet"))
              [tests.id "ip"; tests.id "mask"])).
  reflexivity.
Defined.

(** C7. Two runs of the transform on the same tree, each with fuel for
    the walk, both return, and they return the same tree and the same
    flag: the tree with every affected literal keyed and whether that tree
    differs from the input (the input itself and false when the file does
    not import "net"). And whatever fuel two runs have, if both return
    they return the same. *)
Theorem netipv6zone_deterministic (f : File) (n m : nat) :
  enoughFuel f <= n ->
  enoughFuel f <= m ->
  exists f' b,
    netipv6zone n f = Some (f', b) /\
    netipv6zone m f = Some (f', b) /\
    (f', b) = (if fixpkg.Imports f "net"
               then (rewriteFile f, changesFile f) else (f, false)) /\
    forall n' m' r1 r2,
      netipv6zone n' f = Some r1 ->
      netipv6zone m' f = Some r2 ->
      r1 = r2.
Proof.
  intros Hn Hm.
  exists (if fixpkg.Imports f "net" then rewriteFile f else f),
         (if fixpkg.Imports f "net" then changesFile f else false).
  rewrite !netipv6zone_spec by done.
  split; [by destruct (fixpkg.Imports f "net")|].
  split; [by destruct (fixpkg.Imports f "net")|].
  split; [by destruct (fixpkg.Imports f "net")|].
  intros n' m' r1 r2 H1 H2.
  apply netipv6zone_returns_spec in H1, H2. congruence.
Qed.

Lemma netipv6zone_deterministic_witness :
  exists f' b,
    netipv6zone 16 tests.In = Some (f', b) /\
    netipv6zone 20 tests.In = Some (f', b) /\
    (f', b) = (tests.Out, true).
Proof.
  destruct (netipv6zone_deterministic tests.In 16 20)
    as (f' & b & H1 & H2 & Hp & _); [vm_compute; lia..|].
  exists f', b. split; [exact H1|]. split; [exact H2|exact Hp].
Defined.

(** C8. When at least one requested name is not registered, [select]
    fails with an [UnknownFixError] that holds every requested name that
    is not registered, and no other name. *)
Theorem select_reports_every_unknown_name
    (reg : Registry) (names : gset string) :
  ~ names ⊆ registered reg ->
  exists bad,
    select reg names = inl (UnknownFixError bad) /\
    forall name, name ∈ bad <-> name ∈ names /\ name ∉ registered reg.
Proof.
  intros Hsub. exists (names ∖ registered reg). split.
  - unfold select. case_decide as Hempty; [|done].
    exfalso. apply Hsub. intros x Hx.
    destruct (decide (x ∈ registered reg)) as [|Hnot]; [done|].
    assert (x ∈ names ∖ registered reg) as Hin by (by apply elem_of_difference).
    rewrite Hempty in Hin. by apply not_elem_of_empty in Hin.
  - intros name. apply elem_of_difference.
Qed.

(** Selecting real, bogus1 and bogus2 when only real is registered. *)
Lemma select_reports_every_unknown_name_witness :
  exists bad,
    select [examples.real] {["real"; "bogus1"; "bogus2"]}
    = inl (UnknownFixError bad) /\
    forall name,
      name ∈ bad <->
      name ∈ ({["real"; "bogus1"; "bogus2"]} : gset string) /\
      name ∉ registered [examples.real].
Proof.
  apply select_reports_every_unknown_name.
  apply (bool_decide_unpack _). vm_compute. exact I.
Defined.



Lemma isZeroLit_iff (e : Expr) :
  isZeroLit e = true <-> exists kind, e = BasicLit kind "0".
Proof.
  split.
  - destruct e as [|kind val| | | | | | | | |]; try done. simpl.
    intros ->%String.eqb_eq. by exists kind.
  - by intros [kind ->].
Qed.

(** C10. The element at position 1 of a positional literal of an affected
    type is deleted only when it is a basic literal whose text is exactly
    0; any other element there, whether another spelling of zero or not a
    literal, is kept and keyed by Port. *)
Theorem netipv6zone_deletes_only_token_zero
    (ty : option Expr) (a b : Expr) (rest : list Expr) (fx : bool) :
  affectedType ty = true ->
  isKeyValueExpr a = false ->
  isKeyValueExpr b = false ->
  netipv6zoneVisit (CompositeLit ty (a :: b :: rest)) fx
  = Some (CompositeLit ty
            (KeyValueExpr (NewIdent "IP") a
             :: (if isZeroLit b then rest
                 else KeyValueExpr (NewIdent "Port") b :: rest)),
          true) /\
  (isZeroLit b = true <-> exists kind, b = BasicLit kind "0").
Proof.
  intros Hty Ha Hb. split; [|apply isZeroLit_iff].
  rewrite netipv6zoneVisit_spec. simpl. rewrite Hty, Ha, Hb.
  simpl. by rewrite orb_absorb_true.
Qed.

Lemma netipv6zone_deletes_only_token_zero_witness :
  netipv6zoneVisit
    (CompositeLit examples.IPAddr [tests.id "ip"; tests.int "0x0"]) false
  = Some (CompositeLit examples.IPAddr
            [tests.kv "IP" (tests.id "ip"); tests.kv "Port" (tests.int "0x0")],
          true) /\
  netipv6zoneVisit
    (CompositeLit examples.IPAddr [tests.id "ip"; tests.int "00"]) false
  = Some (CompositeLit examples.IPAddr
            [tests.kv "IP" (tests.id "ip"); tests.kv "Port" (tests.int "00")],
          true) /\
  netipv6zoneVisit
    (CompositeLit examples.IPAddr [tests.id "ip"; tests.int "0"]) false
  = Some (CompositeLit examples.IPAddr [tests.kv "IP" (tests.id "ip")], true).
Proof.
  split; [|split].
  - apply (netipv6zone_deletes_only_token_zero examples.IPAddr (tests.id "ip")
             (tests.int "0x0") [] false); reflexivity.
  - apply (netipv6zone_deletes_only_token_zero examples.IPAddr (tests.id "ip")
             (tests.int "00") [] false); reflexivity.
  - apply (netipv6zone_deletes_only_token_zero examples.IPAddr (tests.id "ip")
             (tests.int "0") [] false); reflexivity.
Defined.

(** * Further properties of the fix *)

(** ** The loop and the callback *)

Lemma rangeBody_lengths (i : nat) (e : Expr) (st st1 : EltsState) :
  len st <= length (array st) ->
  rangeBody i e st = Some st1 ->
  length (array st1) = length (array st) /\ len st1 <= len st.
Proof.
  intros Hlen. unfold rangeBody.
  destruct i as [|[|i]]; simpl.
  - unfold setElt. case_decide; [|done]. simpl. intros [= <-]. simpl.
    by rewrite length_insert.
  - destruct (isZeroLit e).
    + unfold deleteElt. case_decide; [|done]. simpl. intros [= <-]. simpl.
      rewrite !length_app, length_take, length_drop, length_take, length_drop.
      lia.
    + unfold setElt. case_decide; [|done]. simpl. intros [= <-]. simpl.
      by rewrite length_insert.
  - by intros [= <-].
Qed.

Lemma rangeElts_lengths (todo i : nat) (st st' : EltsState) :
  len st <= length (array st) ->
  rangeElts todo i st = Some st' ->
  length (array st') = length (array st) /\ len st' <= len st.
Proof.
  revert i st. induction todo as [|todo IH]; intros i st Hlen; simpl.
  { by intros [= <-]. }
  destruct (array st !! i) as [e|]; [|done]. simpl.
  destruct (isKeyValueExpr e); [by intros [= <-]|].
  destruct (rangeBody i e st) as [st1|] eqn:Hb; [|done]. simpl.
  apply rangeBody_lengths in Hb as [Ha Hl]; [|done].
  intros Hr. apply IH in Hr as [Ha' Hl']; [|lia]. split; lia.
Qed.

(** X1. The loop over [cl.Elts] never indexes or slices out of range,
    whatever the elements are, although it shortens the slice it ranges
    over: it always runs to its end (or its break), the backing array
    keeps its length and the live slice stays inside it. *)
Theorem netipv6zone_loop_stays_in_range (elts : list Expr) (fx : bool) :
  exists st,
    rangeElts (length elts) 0 (mkElts elts (length elts) fx) = Some st /\
    length (array st) = length elts /\
    len st <= length elts.
Proof.
  destruct (rangeElts_spec elts fx) as (st & Hr & _).
  exists st. split; [done|].
  by apply rangeElts_lengths in Hr.
Qed.

Lemma keyElts_length (elts : list Expr) :
  length (keyElts elts) <= length elts /\
  length elts <= S (length (keyElts elts)) /\
  (length (keyElts elts) < length elts <->
   exists a z rest, elts = a :: z :: rest /\
                    isKeyValueExpr a = false /\ isZeroLit z = true).
Proof.
  destruct elts as [|a [|z rest]]; simpl.
  - split; [lia|]. split; [lia|]. split; [lia|]. by intros (? & ? & ? & ? & _).
  - destruct (isKeyValueExpr a); simpl; (split; [lia|]); (split; [lia|]);
      (split; [lia|]); by intros (? & ? & ? & ? & _).
  - destruct (isKeyValueExpr a) eqn:Ha; simpl.
    { split; [lia|]. split; [lia|]. split; [lia|].
      intros (? & ? & ? & [= <- <- <-] & ? & _). congruence. }
    destruct (isKeyValueExpr z) eqn:Hz; simpl.
    { split; [lia|]. split; [lia|]. split; [lia|].
      intros (? & ? & ? & [= <- <- <-] & _ & Hzero).
      by destruct z. }
    destruct (isZeroLit z) eqn:Hzero; simpl.
    + split; [lia|]. split; [lia|]. split; [|lia]. intros _. by exists a, z, rest.
    + split; [lia|]. split; [lia|]. split; [lia|].
      intros (? & ? & ? & [= <- <- <-] & _ & ?). congruence.
Qed.

(** X2. On a composite literal the callback gives back a composite
    literal with the same type expression; it never adds an element and
    removes at most one, and it removes one exactly when the type is an
    affected one, the first element is positional and the second is the
    literal 0. *)
Theorem netipv6zone_callback_shape
    (ty : option Expr) (elts : list Expr) (fx : bool) :
  exists elts' b,
    netipv6zoneVisit (CompositeLit ty elts) fx
    = Some (CompositeLit ty elts', b) /\
    length elts' <= length elts /\
    length elts <= S (length elts') /\
    (length elts' < length elts <->
     affectedType ty = true /\
     exists a z rest, elts = a :: z :: rest /\
                      isKeyValueExpr a = false /\ isZeroLit z = true).
Proof.
  rewrite netipv6zoneVisit_spec. cbn [keyLit].
  destruct (affectedType ty) eqn:Hty.
  - eexists _, _. split; [done|].
    destruct (keyElts_length elts) as (H1 & H2 & H3).
    split; [done|]. split; [done|]. rewrite H3.
    split; [by intros ?|by intros [_ ?]].
  - eexists _, _. split; [done|]. split; [lia|]. split; [lia|].
    split; [lia|]. by intros [? _].
Qed.

(** X3. Started with the flag unset, the callback sets it on a composite
    literal exactly when the type is an affected one and the first
    element exists and is positional; an empty literal and an already
    keyed one leave it unset. *)
Theorem netipv6zone_flag_set_iff
    (ty : option Expr) (elts : list Expr) (e' : Expr) (b : bool) :
  netipv6zoneVisit (CompositeLit ty elts) false = Some (e', b) ->
  b = true <->
  affectedType ty = true /\
  exists a rest, elts = a :: rest /\ isKeyValueExpr a = false.
Proof.
  rewrite netipv6zoneVisit_spec. intros [= _ <-]. simpl.
  destruct (affectedType ty); simpl; [|split; [done|by intros [? _]]].
  destruct elts as [|a rest]; simpl.
  - split; [done|]. by intros [_ (? & ? & ? & _)].
  - destruct (isKeyValueExpr a) eqn:Ha; simpl.
    + split; [done|]. intros [_ (? & ? & [= <- <-] & ?)]. congruence.
    + split; [|done]. intros _. split; [done|]. by exists a, rest.
Qed.

Lemma netipv6zone_flag_set_iff_witness :
  true = true <->
  affectedType examples.IPAddr = true /\
  exists a rest, [tests.id "ip"; tests.int "0"] = a :: rest /\
                 isKeyValueExpr a = false.
Proof.
  apply (netipv6zone_flag_set_iff examples.IPAddr [tests.id "ip"; tests.int "0"]
           (CompositeLit examples.IPAddr [tests.kv "IP" (tests.id "ip")])).
  reflexivity.
Defined.

(** X4. The callback only ever raises the flag: called with the flag at
    [fx] it leaves the node it would leave with the flag unset, and the
    flag at [fx] or what it would be then. In particular a set flag stays
    set, which is what lets one variable collect the verdict of a whole
    walk. *)
Theorem netipv6zone_flag_accumulates (e e' : Expr) (fx b : bool) :
  netipv6zoneVisit e false = Some (e', b) ->
  netipv6zoneVisit e fx = Some (e', fx || b).
Proof.
  rewrite !netipv6zoneVisit_spec. by intros [= <- <-].
Qed.

Lemma netipv6zone_flag_accumulates_witness :
  netipv6zoneVisit
    (CompositeLit examples.IPAddr [tests.kv "IP" (tests.id "ip")]) true
  = Some (CompositeLit examples.IPAddr [tests.kv "IP" (tests.id "ip")], true).
Proof.
  apply (netipv6zone_flag_accumulates
           (CompositeLit examples.IPAddr [tests.kv "IP" (tests.id "ip")])
           (CompositeLit examples.IPAddr [tests.kv "IP" (tests.id "ip")])
           true false).
  reflexivity.
Defined.

Lemma keyElts_keeps (elts : list Expr) (x : Expr) :
  x ∈ elts ->
  x ∈ keyElts elts \/
  KeyValueExpr (NewIdent "IP") x ∈ keyElts elts \/
  KeyValueExpr (NewIdent "Port") x ∈ keyElts elts \/
  isZeroLit x = true.
Proof.
  destruct elts as [|a [|z rest]]; simpl.
  - by intros ?%elem_of_nil.
  - intros Hx. apply list_elem_of_singleton in Hx. subst x.
    destruct (isKeyValueExpr a); [left|right; left]; by left.
  - intros Hx. destruct (isKeyValueExpr a); [by left|].
    apply elem_of_cons in Hx as [Hx|Hx]; [subst x; right; left; by left|].
    destruct (isKeyValueExpr z); [left; by right|].
    destruct (isZeroLit z) eqn:Hz.
    + apply elem_of_cons in Hx as [Hx|Hx]; [subst x; by do 3 right|].
      left. by right.
    + apply elem_of_cons in Hx as [Hx|Hx].
      * subst x. right; right; left. right. by left.
      * left. by do 2 right.
Qed.

Lemma keyElts_invents_nothing (elts : list Expr) (x : Expr) :
  x ∈ keyElts elts ->
  x ∈ elts \/
  exists a, a ∈ elts /\
            (x = KeyValueExpr (NewIdent "IP") a \/
             x = KeyValueExpr (NewIdent "Port") a).
Proof.
  destruct elts as [|a [|z rest]]; simpl.
  - by left.
  - destruct (isKeyValueExpr a); [by left|].
    intros Hx. apply list_elem_of_singleton in Hx. subst x.
    right. exists a. split; [by left|by left].
  - destruct (isKeyValueExpr a); [by left|]. intros Hx.
    apply elem_of_cons in Hx as [Hx|Hx].
    { subst x. right. exists a. split; [by left|by left]. }
    destruct (isKeyValueExpr z); [left; by right|].
    destruct (isZeroLit z); [left; by do 2 right|].
    apply elem_of_cons in Hx as [Hx|Hx]; [|left; by do 2 right].
    subst x. right. exists z. split; [right; by left|by right].
Qed.

(** X5. The callback loses and invents nothing but what the fix is
    for: every element of the literal is still there afterwards, as it was
    or as the value of an IP or Port pair, unless it is the literal 0; and
    every element afterwards is an old element or an IP or Port pair
    around one. *)
Theorem netipv6zone_callback_keeps_values
    (ty : option Expr) (elts elts' : list Expr) (fx b : bool) :
  netipv6zoneVisit (CompositeLit ty elts) fx = Some (CompositeLit ty elts', b) ->
  (forall x, x ∈ elts ->
     x ∈ elts' \/
     KeyValueExpr (NewIdent "IP") x ∈ elts' \/
     KeyValueExpr (NewIdent "Port") x ∈ elts' \/
     isZeroLit x = true) /\
  (forall x, x ∈ elts' ->
     x ∈ elts \/
     exists a, a ∈ elts /\
               (x = KeyValueExpr (NewIdent "IP") a \/
                x = KeyValueExpr (NewIdent "Port") a)).
Proof.
  rewrite netipv6zoneVisit_spec. cbn [keyLit].
  destruct (affectedType ty).
  - intros [= <- _]. split; intros x Hx.
    + by apply keyElts_keeps.
    + by apply keyElts_invents_nothing.
  - intros [= <- _]. split; intros x Hx; by left.
Qed.

Lemma netipv6zone_callback_keeps_values_witness :
  (forall x, x ∈ [tests.id "ip4"; tests.int "0"] ->
     x ∈ [tests.kv "IP" (tests.id "ip4")] \/
     KeyValueExpr (NewIdent "IP") x ∈ [tests.kv "IP" (tests.id "ip4")] \/
     KeyValueExpr (NewIdent "Port") x ∈ [tests.kv "IP" (tests.id "ip4")] \/
     isZeroLit x = true) /\
  (forall x, x ∈ [tests.kv "IP" (tests.id "ip4")] ->
     x ∈ [tests.id "ip4"; tests.int "0"] \/
     exists a, a ∈ [tests.id "ip4"; tests.int "0"] /\
               (x = KeyValueExpr (NewIdent "IP") a \/
                x = KeyValueExpr (NewIdent "Port") a)).
Proof.
  apply (netipv6zone_callback_keeps_values examples.IPAddr _ _ false true).
  reflexivity.
Defined.

Lemma firesLit_keyLit (e : Expr) : firesLit (keyLit e) = false.
Proof.
  destruct e as [| |ty elts| | | | | | | |]; try done. simpl.
  destruct (affectedType ty) eqn:Hty; simpl; rewrite Hty; [|done]. simpl.
  destruct elts as [|a rest]; [done|]. simpl.
  destruct (isKeyValueExpr a) eqn:Ha; simpl; by rewrite ?Ha.
Qed.

(** X6. The callback is idempotent at every node: run again on the node
    it has just left, with the flag it has just left, it changes neither.
    A keyed literal is never keyed twice. *)
Theorem netipv6zone_callback_idempotent (e e1 : Expr) (fx b : bool) :
  netipv6zoneVisit e fx = Some (e1, b) ->
  netipv6zoneVisit e1 b = Some (e1, b).
Proof.
  rewrite !netipv6zoneVisit_spec. intros [= <- <-].
  by rewrite keyLit_idem, firesLit_keyLit, orb_false_r.
Qed.

Lemma netipv6zone_callback_idempotent_witness :
  netipv6zoneVisit
    (CompositeLit examples.IPAddr
       [tests.kv "IP" (tests.id "ip2"); tests.kv "Port" (tests.int "12345")])
    true
  = Some (CompositeLit examples.IPAddr
            [tests.kv "IP" (tests.id "ip2"); tests.kv "Port" (tests.int "12345")],
          true).
Proof.
  apply (netipv6zone_callback_idempotent
           (CompositeLit examples.IPAddr [tests.id "ip2"; tests.int "12345"])
           _ false true).
  reflexivity.
Defined.

(** X7. The callback and the rewriting of the children commute: on a node
    whose children have been rewritten already it gives the node it gives
    on the original, with the children rewritten, and the same flag. *)
Theorem netipv6zone_callback_commutes (e e1 : Expr) (fx b : bool) :
  netipv6zoneVisit e fx = Some (e1, b) ->
  netipv6zoneVisit (mapExprChildren rewriteExpr e) fx
  = Some (mapExprChildren rewriteExpr e1, b).
Proof.
  rewrite !netipv6zoneVisit_spec. intros [= <- <-].
  by rewrite firesLit_mapExprChildren, keyLit_mapExprChildren,
    rewriteExpr_unfold.
Qed.

Lemma netipv6zone_callback_commutes_witness :
  netipv6zoneVisit
    (CompositeLit (Some (tests.sel "net" "UDPAddr"))
       [CompositeLit examples.IPAddr [tests.kv "IP" (tests.id "ip")];
        tests.int "53"])
    false
  = Some (CompositeLit (Some (tests.sel "net" "UDPAddr"))
            [tests.kv "IP"
               (CompositeLit examples.IPAddr [tests.kv "IP" (tests.id "ip")]);
             tests.kv "Port" (tests.int "53")],
          true).
Proof.
  exact (netipv6zone_callback_commutes
           (CompositeLit (Some (tests.sel "net" "UDPAddr"))
              [CompositeLit examples.IPAddr [tests.id "ip"]; tests.int "53"])
           (CompositeLit (Some (tests.sel "net" "UDPAddr"))
              [tests.kv "IP" (CompositeLit examples.IPAddr [tests.id "ip"]);
               tests.kv "Port" (tests.int "53")])
           false true eq_refl).
Defined.

(** ** The whole transform *)

(** X8. The transform terminates on every file although its callback
    grows the tree under the walker: the wrapped elements add at most one
    level per level of the input, so fuel for twice the depth of the file
    is enough, and from there on the result does not depend on the
    fuel. *)
Theorem netipv6zone_terminates (f : File) (fuel : nat) :
  2 * depthFile f <= fuel ->
  exists f' b,
    netipv6zone fuel f = Some (f', b) /\
    netipv6zone (2 * depthFile f) f = Some (f', b).
Proof.
  intros Hfuel.
  exists (if fixpkg.Imports f "net" then rewriteFile f else f),
         (if fixpkg.Imports f "net" then changesFile f else false).
  split; rewrite netipv6zone_spec by (unfold enoughFuel; lia);
    by destruct (fixpkg.Imports f "net").
Qed.

Lemma netipv6zone_terminates_witness :
  exists f' b,
    netipv6zone 20 tests.In = Some (f', b) /\
    netipv6zone (2 * depthFile tests.In) tests.In = Some (f', b).
Proof.
  apply netipv6zone_terminates. vm_compute. lia.
Defined.

(** ** The test file *)

Import maintest.

Lemma fillFn_spec (g : FixFn) (todo : nat) :
  forall i t, i + todo = length t ->
    fillFn g todo i t = take i t ++ (filled (Some g) <$> drop i t).
Proof.
  induction todo as [|todo IH]; intros i t Hlen; simpl.
  { rewrite take_ge, drop_ge by lia. simpl. by rewrite app_nil_r. }
  destruct (lookup_lt_is_Some_2 t i) as [tc Htc]; [lia|]. rewrite Htc.
  rewrite (drop_S t tc i Htc), fmap_cons.
  destruct (Fn tc) eqn:Hfn.
  - rewrite IH by lia. rewrite (take_S_r t i tc Htc), <- app_assoc. simpl.
    unfold filled at 2. by rewrite Hfn.
  - rewrite IH by (rewrite length_insert; lia).
    rewrite (take_S_r _ i (setFn tc g))
      by (apply list_lookup_insert_eq; lia).
    rewrite take_insert_ge, drop_insert_lt, <- app_assoc by lia. simpl.
    unfold filled at 2. by rewrite Hfn.
Qed.

Lemma addTestCases_filled (t : list testCase) (fn : option FixFn)
    (cases : list testCase) :
  addTestCases t fn cases = (filled fn <$> t, cases ++ (filled fn <$> t)).
Proof.
  unfold addTestCases. destruct fn as [g|].
  - rewrite fillFn_spec by lia. by rewrite take_0, drop_0.
  - assert (filled None <$> t = t) as ->; [|done].
    induction t as [|tc t IH]; [done|]. by rewrite fmap_cons, IH.
Qed.

(** X10. [addTestCases] appends to [testCases], in order and after what
    is there, exactly the cases it was given; it gives [fn] to the cases
    that have no function and changes nothing else: a case that has a
    function keeps it, and every name, input and expected output stays.
    The slice of the caller is filled the same way. *)
Theorem addTestCases_appends_filled
    (t : list testCase) (fn : option FixFn) (cases : list testCase) :
  (addTestCases t fn cases).2 = cases ++ (addTestCases t fn cases).1 /\
  length (addTestCases t fn cases).1 = length t /\
  forall i tc, t !! i = Some tc ->
    exists tc', (addTestCases t fn cases).1 !! i = Some tc' /\
      Name tc' = Name tc /\ In tc' = In tc /\ Out tc' = Out tc /\
      Fn tc' = match Fn tc with Some h => Some h | None => fn end.
Proof.
  rewrite addTestCases_filled. simpl. split; [done|].
  split; [by rewrite length_fmap|].
  intros i tc Htc. exists (filled fn tc). rewrite list_lookup_fmap, Htc.
  split; [done|]. unfold filled.
  destruct fn, (Fn tc) eqn:Hfn; simpl; rewrite ?Hfn; by repeat split.
Qed.

Lemma addTestCases_appends_filled_witness :
  exists tc', (addTestCases netipv6zoneTests (Some netipv6zone) []).1 !! 0
              = Some tc' /\
    Name tc' = Name netipv6zone0 /\ In tc' = In netipv6zone0 /\
    Out tc' = Out netipv6zone0 /\
    Fn tc' = match Fn netipv6zone0 with
             | Some h => Some h
             | None => Some netipv6zone
             end.
Proof.
  apply (addTestCases_appends_filled netipv6zoneTests (Some netipv6zone) []).
  reflexivity.
Defined.

Lemma filled_filled (g : FixFn) (fn' : option FixFn) (tc : testCase) :
  filled fn' (filled (Some g) tc) = filled (Some g) tc.
Proof.
  unfold filled. destruct (Fn tc) eqn:H; simpl; destruct fn'; simpl;
    by rewrite ?H.
Qed.

(** X11. After [addTestCases] with a function no case of the slice is
    without one, and the first function given stays: a second
    [addTestCases] on the same slice, with whatever function, leaves the
    slice as it is. *)
Theorem addTestCases_first_function_stays
    (t : list testCase) (g : FixFn) (fn' : option FixFn)
    (cases cases' : list testCase) :
  (forall tc, tc ∈ (addTestCases t (Some g) cases).1 -> Fn tc <> None) /\
  (addTestCases (addTestCases t (Some g) cases).1 fn' cases').1
  = (addTestCases t (Some g) cases).1.
Proof.
  rewrite !addTestCases_filled. simpl.
  assert (forall tc, Fn (filled (Some g) tc) <> None) as Hfn.
  { intros tc. unfold filled. destruct (Fn tc) eqn:H; simpl; [|done].
    by rewrite H. }
  split.
  - intros tc (tc0 & -> & _)%list_elem_of_fmap. apply Hfn.
  - rewrite <- list_fmap_compose. apply list_fmap_ext. intros i tc _. simpl.
    apply filled_filled.
Qed.

Section HarnessFacts.
Variable ParseFile : string -> string -> option File.
Variable GofmtFile : File -> option string.
Variable Diff : string -> string -> string + string.

Lemma tdiff_appends (t : list Failure) (a b : string) :
  exists e, tdiff Diff t a b = t ++ [e].
Proof. unfold tdiff. destruct (Diff a b); by eexists. Qed.

Lemma parseFixPrint_cases (fuel : nat) (t t' : list Failure)
    (fn : option FixFn) (desc input out : string) (m fixed ok : bool) :
  parseFixPrint ParseFile GofmtFile Diff fuel t fn desc input m
  = Some (t', (out, fixed, ok)) ->
  (ok = false /\ out = "" /\ exists e errs, t' = t ++ e :: errs) \/
  (ok = true /\ t' = t /\
   exists file s file',
     ParseFile desc input = Some file /\ GofmtFile file = Some s /\
     (m = true -> s = input) /\
     match fn with
     | None => applyFixes fixes fuel file false
     | Some g => g fuel file
     end = Some (file', fixed) /\
     GofmtFile file' = Some out).
Proof.
  unfold parseFixPrint.
  destruct (ParseFile desc input) as [file|]; cycle 1.
  { intros [= <- <- <- <-]. left. by eauto. }
  destruct (GofmtFile file) as [s|] eqn:Hs; cycle 1.
  { intros [= <- <- <- <-]. left. by eauto. }
  destruct (negb (String.eqb input s) && m) eqn:Hfmt.
  { intros [= <- <- <- <-]. left. split; [done|]. split; [done|].
    destruct (tdiff_appends (t ++ [ErrNotGofmt desc input s]) input s)
      as [e ->].
    rewrite <- app_assoc. by eauto. }
  destruct (match fn with
            | Some g => g fuel file
            | None => applyFixes fixes fuel file false
            end) as [[file' fx]|] eqn:Hfn; [|done].
  destruct (GofmtFile file') as [o|] eqn:Ho.
  - intros [= <- <- <- <-]. right. split; [done|]. split; [done|].
    exists file, s, file'. repeat split; try done.
    intros ->. simpl in Hfmt. rewrite andb_true_r in Hfmt.
    apply negb_false_iff, String.eqb_eq in Hfmt. done.
  - intros [= <- <- <- <-]. left. by eauto.
Qed.
End HarnessFacts.

(** X12. [parseFixPrint] never fails silently: it returns ok exactly
    when it has recorded no failure. When it returns not ok it has
    recorded one at least, and the text it returns is empty. *)
Theorem parseFixPrint_ok_iff_no_failure
    (ParseFile : string -> string -> option File)
    (GofmtFile : File -> option string)
    (Diff : string -> string -> string + string)
    (fuel : nat) (t t' : list Failure) (fn : option FixFn)
    (desc input out : string) (m fixed ok : bool) :
  parseFixPrint ParseFile GofmtFile Diff fuel t fn desc input m
  = Some (t', (out, fixed, ok)) ->
  (ok = true <-> t' = t) /\
  (ok = false -> out = "" /\ exists e errs, t' = t ++ e :: errs).
Proof.
  intros [(-> & -> & e & errs & ->)|(-> & -> & _)]%parseFixPrint_cases.
  - split; [|by eauto]. split; [done|].
    intros Heq. apply (f_equal length) in Heq.
    rewrite length_app in Heq. simpl in Heq. lia.
  - split; [done|]. done.
Qed.

Lemma parseFixPrint_ok_iff_no_failure_witness :
  (false = true <-> [ErrParsing "x"] = []) /\
  (false = false ->
   "" = "" /\ exists e errs, [ErrParsing "x"] = [] ++ e :: errs).
Proof.
  apply (parseFixPrint_ok_iff_no_failure tableParse tablePrint noDiff
           8 [] [ErrParsing "x"] None "x" "not a Go file" "" true false false).
  reflexivity.
Defined.

(** X13. When [parseFixPrint] returns ok, the input parsed and printed,
    the fix function (or, for a nil function, the fixes of [fixes] in
    turn) ran on the parsed tree and returned the flag that is returned,
    and the text returned is the print of the tree the fix left. With
    [mustBeGofmt], the input was moreover exactly the print of its own
    parse. *)
Theorem parseFixPrint_ok_means
    (ParseFile : string -> string -> option File)
    (GofmtFile : File -> option string)
    (Diff : string -> string -> string + string)
    (fuel : nat) (t t' : list Failure) (fn : option FixFn)
    (desc input out : string) (m fixed : bool) :
  parseFixPrint ParseFile GofmtFile Diff fuel t fn desc input m
  = Some (t', (out, fixed, true)) ->
  exists file s file',
    ParseFile desc input = Some file /\ GofmtFile file = Some s /\
    (m = true -> s = input) /\
    match fn with
    | None => applyFixes fixes fuel file false
    | Some g => g fuel file
    end = Some (file', fixed) /\
    GofmtFile file' = Some out.
Proof.
  intros [([=] & _)|(_ & _ & H)]%parseFixPrint_cases. done.
Qed.

Lemma parseFixPrint_ok_means_witness :
  exists file s file',
    tableParse "netipv6zone.0" (In netipv6zone0) = Some file /\
    tablePrint file = Some s /\
    (true = true -> s = In netipv6zone0) /\
    netipv6zone 8 file = Some (file', true) /\
    tablePrint file' = Some (Out netipv6zone0).
Proof.
  apply (parseFixPrint_ok_means tableParse tablePrint noDiff 8 [] []
           (Some netipv6zone) "netipv6zone.0" (In netipv6zone0)
           (Out netipv6zone0) true true).
  vm_compute. reflexivity.
Defined.

(** X14. In this program a nil fix function means [netipv6zone]:
    [fixes] holds that fix only, so [parseFixPrint] with a nil function
    records and returns what it does with [netipv6zone]. *)
Theorem parseFixPrint_nil_is_netipv6zone
    (ParseFile : string -> string -> option File)
    (GofmtFile : File -> option string)
    (Diff : string -> string -> string + string)
    (fuel : nat) (t : list Failure) (desc input : string) (m : bool) :
  parseFixPrint ParseFile GofmtFile Diff fuel t None desc input m
  = parseFixPrint ParseFile GofmtFile Diff fuel t (Some netipv6zone)
      desc input m.
Proof.
  unfold parseFixPrint.
  destruct (ParseFile desc input) as [file|]; [|done].
  destruct (GofmtFile file) as [s|]; [|done].
  destruct (negb (String.eqb input s) && m); [done|].
  simpl. destruct (netipv6zone fuel file) as [[file' []]|]; done.
Qed.

(** X15. [fnop] changes no text that is already formatted: when
    [parseFixPrint] with [fnop] and [mustBeGofmt] returns ok, the text it
    returns is its input, the flag is false and nothing was recorded. *)
Theorem parseFixPrint_fnop_keeps_formatted
    (ParseFile : string -> string -> option File)
    (GofmtFile : File -> option string)
    (Diff : string -> string -> string + string)
    (fuel : nat) (t t' : list Failure)
    (desc input out : string) (fixed : bool) :
  parseFixPrint ParseFile GofmtFile Diff fuel t (Some fnop) desc input true
  = Some (t', (out, fixed, true)) ->
  out = input /\ fixed = false /\ t' = t.
Proof.
  intros [([=] & _)|(_ & -> & file & s & file' & _ & Hs & Hfmt & Hfn & Ho)]
    %parseFixPrint_cases.
  injection Hfn as <- <-. rewrite Hfmt in Hs by done.
  split; [congruence|done].
Qed.

Lemma parseFixPrint_fnop_keeps_formatted_witness :
  Out netipv6zone0 = Out netipv6zone0 /\ false = false /\
  ([] : list Failure) = [].
Proof.
  apply (parseFixPrint_fnop_keeps_formatted tableParse tablePrint noDiff
           0 [] [] "netipv6zone.0" (Out netipv6zone0) (Out netipv6zone0) false).
  vm_compute. reflexivity.
Defined.

Lemma netipv6zone_second_run (f f1 : File) (b : bool) (fuel fuel' : nat)
    (r : File * bool) :
  netipv6zone fuel f = Some (f1, b) ->
  netipv6zone fuel' f1 = Some r ->
  r = (f1, false).
Proof.
  intros H1 H2. apply netipv6zone_returns_spec in H1, H2.
  destruct (fixpkg.Imports f "net") eqn:Himp; injection H1 as -> ->.
  - by rewrite Imports_rewriteFile, Himp, rewriteFile_idem,
      changesFile_rewriteFile in H2.
  - by rewrite Himp in H2.
Qed.

Lemma netipv6zone_flag_false_iff (f f1 : File) (b : bool) (fuel : nat) :
  netipv6zone fuel f = Some (f1, b) -> b = false <-> f1 = f.
Proof.
  intros H1. apply netipv6zone_returns_spec in H1.
  destruct (fixpkg.Imports f "net"); injection H1 as -> ->; [|done].
  by rewrite rewriteFile_fixed_iff.
Qed.

(** X16. For a test case of [netipv6zone], the checks of [TestRewrite]
    on the fix itself cannot fail: whenever the input parses to a tree
    whose print it is, and the print of the fixed tree parses back to the
    fixed tree, the case passes if that print is the expected output, and
    otherwise fails on the comparison with the expected output only. The
    check of the flag against the change of the text and the checks of the
    second round always hold. *)
Theorem TestRewrite_netipv6zone_checks_hold
    (ParseFile : string -> string -> option File)
    (GofmtFile : File -> option string)
    (Diff : string -> string -> string + string)
    (fuel : nat) (t : list Failure) (tc : testCase)
    (f0 f1 : File) (b : bool) (o1 : string) :
  Fn tc = Some netipv6zone ->
  ParseFile (Name tc) (In tc) = Some f0 ->
  GofmtFile f0 = Some (In tc) ->
  netipv6zone fuel f0 = Some (f1, b) ->
  is_Some (netipv6zone fuel f1) ->
  GofmtFile f1 = Some o1 ->
  ParseFile (Name tc) o1 = Some f1 ->
  ParseFile (Name tc +:+ " output") o1 = Some f1 ->
  (o1 = Out tc ->
   testOne ParseFile GofmtFile Diff fuel t tc = Some t) /\
  (o1 <> Out tc ->
   exists errs,
     testOne ParseFile GofmtFile Diff fuel t tc
     = Some (t ++ ErrIncorrectOutput (Name tc) :: errs)).
Proof.
  intros Hfn HP0 HG0 Hrun [r Hrun2] HG1 HP1 HP2.
  pose proof (netipv6zone_second_run _ _ _ _ _ _ Hrun Hrun2) as ->.
  assert (parseFixPrint ParseFile GofmtFile Diff fuel t (Fn tc) (Name tc)
            (In tc) true = Some (t, (o1, b, true))) as H1.
  { unfold parseFixPrint. rewrite HP0, HG0, String.eqb_refl, Hfn. simpl.
    by rewrite Hrun, HG1. }
  assert (parseFixPrint ParseFile GofmtFile Diff fuel t (Some fnop) (Name tc)
            o1 false = Some (t, (o1, false, true))) as H2.
  { unfold parseFixPrint. rewrite HP1, HG1, andb_false_r. simpl.
    by rewrite HG1. }
  assert (parseFixPrint ParseFile GofmtFile Diff fuel t (Fn tc)
            (Name tc +:+ " output") o1 true = Some (t, (o1, false, true)))
    as H3.
  { unfold parseFixPrint. rewrite HP2, HG1, String.eqb_refl, Hfn. simpl.
    by rewrite Hrun2, HG1. }
  assert (negb (String.eqb o1 (In tc)) = b) as Hflag.
  { pose proof (netipv6zone_flag_false_iff _ _ _ _ Hrun) as Hb.
    destruct (String.eqb_spec o1 (In tc)) as [->|Hne]; simpl.
    - symmetry. apply Hb. congruence.
    - destruct b; [done|]. exfalso. apply Hne.
      assert (f1 = f0) as -> by (by apply Hb). congruence. }
  unfold testOne. rewrite H1. simpl. rewrite H2. simpl. split.
  - intros <-. rewrite String.eqb_refl. simpl.
    rewrite Hflag, eqb_reflx. simpl. rewrite H3. simpl.
    by rewrite String.eqb_refl.
  - intros Hne. apply String.eqb_neq in Hne. rewrite Hne. simpl.
    destruct (tdiff_appends Diff
                (if negb (String.prefix "testdata/" (Name tc))
                 then (t ++ [ErrIncorrectOutput (Name tc)])
                      ++ [ErrHaveWant o1 (Out tc)]
                 else t ++ [ErrIncorrectOutput (Name tc)])
                o1 (Out tc)) as [e ->].
    destruct (negb (String.prefix "testdata/" (Name tc)));
      rewrite <- ?app_assoc; simpl; by eexists.
Qed.

(** The test case of the program, run with the table parser and
    printer: it passes. *)
Lemma TestRewrite_netipv6zone_checks_hold_witness :
  testOne tableParse tablePrint noDiff 10 [] (setFn netipv6zone0 netipv6zone)
  = Some [].
Proof.
  apply (TestRewrite_netipv6zone_checks_hold tableParse tablePrint noDiff
           10 [] (setFn netipv6zone0 netipv6zone)
           tests.In tests.Out true (Out netipv6zone0));
    try reflexivity.
  by eexists.
Defined.

Section HarnessLog.
Variable ParseFile : string -> string -> option File.
Variable GofmtFile : File -> option string.
Variable Diff : string -> string -> string + string.

Lemma tdiff_log (t l : list Failure) (a b : string) :
  tdiff Diff (t ++ l) a b = t ++ tdiff Diff l a b.
Proof. unfold tdiff. destruct (Diff a b); by rewrite app_assoc. Qed.

Lemma parseFixPrint_log (fuel : nat) (t : list Failure) (fn : option FixFn)
    (desc input : string) (m : bool) :
  parseFixPrint ParseFile GofmtFile Diff fuel t fn desc input m
  = onLog t (parseFixPrint ParseFile GofmtFile Diff fuel [] fn desc input m).
Proof.
  unfold parseFixPrint.
  destruct (ParseFile desc input) as [file|]; [|done].
  destruct (GofmtFile file) as [s|]; [|done].
  destruct (negb (String.eqb input s) && m).
  { simpl. by rewrite tdiff_log. }
  destruct (match fn with
            | Some g => g fuel file
            | None => applyFixes fixes fuel file false
            end) as [[file' fx]|]; [|done].
  destruct (GofmtFile file'); simpl; by rewrite ?app_nil_r.
Qed.

Lemma testOne_log (fuel : nat) (t : list Failure) (tc : testCase) :
  testOne ParseFile GofmtFile Diff fuel t tc
  = (fun l => t ++ l) <$> testOne ParseFile GofmtFile Diff fuel [] tc.
Proof.
  unfold testOne.
  rewrite (parseFixPrint_log fuel t).
  destruct (parseFixPrint _ _ _ fuel [] (Fn tc) (Name tc) (In tc) true)
    as [[l1 [[out1 fixed] ok1]]|]; [|done]. simpl.
  destruct ok1; simpl; [|done].
  rewrite (parseFixPrint_log fuel (t ++ l1)), (parseFixPrint_log fuel l1).
  destruct (parseFixPrint _ _ _ fuel [] (Some fnop) (Name tc) out1 false)
    as [[l2 [[out fixed'] ok2]]|]; [|done]. simpl.
  destruct ok2; simpl; [|by rewrite app_assoc].
  destruct (negb (String.eqb out (Out tc))).
  { simpl. destruct (negb (String.prefix "testdata/" (Name tc)));
      by rewrite <- !app_assoc, tdiff_log. }
  destruct (negb (Bool.eqb (negb (String.eqb out (In tc))) fixed)).
  { simpl. by rewrite <- !app_assoc. }
  rewrite (parseFixPrint_log fuel ((t ++ l1) ++ l2)),
    (parseFixPrint_log fuel (l1 ++ l2)).
  destruct (parseFixPrint _ _ _ fuel [] (Fn tc) (Name tc +:+ " output") out true)
    as [[l3 [[out2 fixed2] ok3]]|]; [|done]. simpl.
  destruct ok3; simpl; [|by rewrite <- !app_assoc].
  destruct fixed2; simpl; [by rewrite <- !app_assoc|].
  destruct (negb (String.eqb out2 out)); simpl.
  - by rewrite <- !app_assoc, tdiff_log.
  - by rewrite <- !app_assoc.
Qed.
End HarnessLog.

(** X17. [TestRewrite] keeps the test cases apart: what a case records
    does not depend on the failures recorded before it, no case removes a
    failure, and every case runs whatever the cases before it recorded.
    The failures after [TestRewrite] are the failures before it followed
    by what each case records when run alone, in the order of the
    cases. *)
Theorem TestRewrite_records_each_case
    (ParseFile : string -> string -> option File)
    (GofmtFile : File -> option string)
    (Diff : string -> string -> string + string)
    (fuel : nat) (t : list Failure) (cases : list testCase) :
  TestRewrite ParseFile GofmtFile Diff fuel t cases
  = (fun ls => t ++ concat ls)
      <$> mapM (testOne ParseFile GofmtFile Diff fuel []) cases.
Proof.
  revert t. induction cases as [|tc cases IH]; intros t; simpl.
  { by rewrite app_nil_r. }
  rewrite testOne_log.
  destruct (testOne ParseFile GofmtFile Diff fuel [] tc) as [l|]; [|done].
  simpl. rewrite IH.
  destruct (mapM (testOne ParseFile GofmtFile Diff fuel []) cases) as [ls|];
    [|done].
  simpl. by rewrite app_assoc.
Qed.
